(** * Terminator: the rewrite-and-codegen pipeline of terminator.py / rules.py

    A shallow embedding of the internal AST, the tree visitor, the rule
    engine with its two rules, and the Python code generator, followed by
    the properties stated about them.

    Python objects are dynamically typed.  The embedding keeps that freedom
    where the code observes it: every child position of a node holds a
    [value], which is either a plain scalar or a node, because
    [NodeVisitor.visit], [generic_visit] and the truth tests of the
    generator all distinguish the two at run time.  Fields the code only
    ever reads as text ([name], [op], [var_type], [return_type]) are
    strings, and list-valued fields are lists.  Floats are left out of the
    scalars: the converter builds integer and string literals only.

    The tree is a strict tree (no node is shared between two parents), so
    the in-place field updates of [generic_visit] are rendered as rebuilding
    the visited node. *)

From Stdlib Require Import ZArith String Ascii List Bool Lia DecimalString.
Import ListNotations.

Set Warnings "-register-all".

Open Scope string_scope.
Open Scope Z_scope.

(** ** Text helpers *)

Definition nl : string := String "010"%char EmptyString.
Definition dquote : string := String "034"%char EmptyString.

(** [sep.join(items)] on strings. *)
Fixpoint join_strings (sep : string) (items : list string) : string :=
  match items with
  | [] => EmptyString
  | [x] => x
  | x :: rest => x ++ sep ++ join_strings sep rest
  end.

(** [s * n] on strings: a count below one gives the empty string. *)
Fixpoint repeat_string (s : string) (n : nat) : string :=
  match n with
  | O => EmptyString
  | S k => s ++ repeat_string s k
  end.

(** [str(n)] on an integer. *)
Definition str_of_int (z : Z) : string := NilZero.string_of_int (Z.to_int z).

(** [s.replace] as [_map_type] calls it: every non-overlapping occurrence
    of [const] followed by a space is deleted, scanning from the left. *)
Fixpoint remove_const (s : string) : string :=
  match s with
  | String "c" (String "o" (String "n" (String "s" (String "t" (String " " r))))) =>
      remove_const r
  | String c r => String c (remove_const r)
  | EmptyString => EmptyString
  end.

(** ** Node model (terminator.py, section 1) *)

Inductive scalar : Type :=
| SNone
| SBool (b : bool)
| SInt (z : Z)
| SStr (s : string).

Inductive value : Type :=
| Scalar (s : scalar)
| TranslationUnit (body : list value)
| FunctionDecl (name : string) (params : list value) (body : list value)
               (return_type : string)
| VarDecl (name : string) (var_type : string) (init : value)
| CallExpr (callee : value) (args : list value)
| BinaryOp (op : string) (left_ : value) (right_ : value)
| UnaryOp (op : string) (operand : value)
| ForLoop (init : value) (cond : value) (inc : value) (body : list value)
| Identifier (name : string)
| Literal (lit : scalar)
| PythonForLoop (target : value) (iter : value) (body : list value).

Definition PyNone : value := Scalar SNone.

(** [isinstance(v, Node)] *)
Definition is_Node (v : value) : bool :=
  match v with
  | Scalar _ => false
  | _ => true
  end.

(** Python truth value.  [Node] defines neither [__bool__] nor [__len__],
    so every node is true. *)
Definition truthy (v : value) : bool :=
  match v with
  | Scalar SNone => false
  | Scalar (SBool b) => b
  | Scalar (SInt z) => negb (z =? 0)
  | Scalar (SStr EmptyString) => false
  | Scalar (SStr (String _ _)) => true
  | _ => true
  end.

(** [str(x)] on a scalar, as an f-string applies it. *)
Definition py_str (s : scalar) : string :=
  match s with
  | SNone => "None"
  | SBool true => "True"
  | SBool false => "False"
  | SInt z => str_of_int z
  | SStr t => t
  end.

(** [x == 0] on a scalar: Python's [False] equals zero. *)
Definition eq_zero (s : scalar) : bool :=
  match s with
  | SInt z => z =? 0
  | SBool b => negb b
  | _ => false
  end.

(** The stored [body] attribute of a node, for the kinds that have one:
    [isinstance(stmt, Node) and hasattr(stmt, 'body')]. *)
Definition body_attr (v : value) : option (list value) :=
  match v with
  | TranslationUnit b => Some b
  | FunctionDecl _ _ b _ => Some b
  | ForLoop _ _ _ b => Some b
  | PythonForLoop _ _ b => Some b
  | _ => None
  end.

(** ** Interpreter state, exceptions and the monad threading them

    Two pieces of state can change while the pipeline runs: the attribute
    table of the class [PythonCodeGenerator], to which a rule may add
    [visit_PythonForLoop], and the [_indent_level] of the generator
    instance. *)

Record world : Type := mkWorld {
  has_visit_PythonForLoop : bool;
  _indent_level : Z
}.

Inductive exn : Type :=
| AttributeError
| TypeError.

Inductive outcome (A : Type) : Type :=
| Returns (w : world) (a : A)
| Raises (w : world) (e : exn)
| OutOfFuel.

Arguments Returns {A} w a.
Arguments Raises {A} w e.
Arguments OutOfFuel {A}.

Definition M (A : Type) : Type := world -> outcome A.

Definition ret {A} (a : A) : M A := fun w => Returns w a.

Definition raise {A} (e : exn) : M A := fun w => Raises w e.

Definition bind {A B} (m : M A) (k : A -> M B) : M B :=
  fun w =>
    match m w with
    | Returns w' a => k a w'
    | Raises w' e => Raises w' e
    | OutOfFuel => OutOfFuel
    end.

Declare Scope monad_scope.
Delimit Scope monad_scope with monad.
Notation "x <- m ;; k" := (bind m (fun x => k))
  (at level 61, m at next level, right associativity) : monad_scope.
Notation "m ;;; k" := (bind m (fun _ => k))
  (at level 61, right associativity) : monad_scope.
Open Scope monad_scope.

(** The computation came to an end: it returned or raised. *)
Definition finishes {A} (o : outcome A) : bool :=
  match o with
  | OutOfFuel => false
  | _ => true
  end.

Definition final_world {A} (o : outcome A) : option world :=
  match o with
  | Returns w _ => Some w
  | Raises w _ => Some w
  | OutOfFuel => None
  end.

(** ** Rules (rules.py) *)

Inductive rule : Type :=
| Rule
| ForLoopToRangeRule
| StdCoutToPrintRule.

(** Lines 87-88: attach [visit_PythonForLoop] to the generator class unless
    the class already has it. *)
Definition monkey_patch : M unit :=
  fun w =>
    if has_visit_PythonForLoop w then Returns w tt
    else Returns (mkWorld true (_indent_level w)) tt.

Definition ForLoopToRangeRule_visit (node : value) : M value :=
  match node with
  | ForLoop init cond inc body =>
      match init with
      | VarDecl loop_var _ (Literal v) =>
          if negb (eq_zero v) then ret node else
          match cond with
          | BinaryOp op (Identifier n) upper_bound =>
              if negb ((op =? "<")%string && (n =? loop_var)%string) then ret node else
              match inc with
              | UnaryOp op' (Identifier n') =>
                  if negb ((op' =? "++")%string && (n' =? loop_var)%string)
                  then ret node
                  else
                    monkey_patch ;;;
                    ret (PythonForLoop (Identifier loop_var) upper_bound body)
              | _ => ret node
              end
          | _ => ret node
          end
      | _ => ret node
      end
  | _ => ret node
  end.

Definition is_shift_op (v : value) : bool :=
  match v with
  | BinaryOp op _ _ => (op =? "<<")%string
  | _ => false
  end.

Definition is_identifier_named (n : string) (v : value) : bool :=
  match v with
  | Identifier m => (m =? n)%string
  | _ => false
  end.

(** [_flatten_cout_chain]; both call sites pass a [BinaryOp], the only kind
    with a [right] attribute. *)
Fixpoint _flatten_cout_chain (node : value) : list value :=
  match node with
  | BinaryOp _ left_ right_ =>
      let args :=
        if is_identifier_named "std::endl" right_ then [] else [right_] in
      if is_shift_op left_ then _flatten_cout_chain left_ ++ args else args
  | _ => []
  end.

Definition StdCoutToPrintRule_visit (node : value) : M value :=
  match node with
  | BinaryOp op left_ _ =>
      if negb (op =? "<<")%string then ret node
      else if negb (is_identifier_named "std::cout" left_)
              && negb (is_shift_op left_)
      then ret node
      else ret (CallExpr (Identifier "print") (_flatten_cout_chain node))
  | _ => ret node
  end.

Definition Rule_visit (r : rule) (node : value) : M value :=
  match r with
  | Rule => ret node
  | ForLoopToRangeRule => ForLoopToRangeRule_visit node
  | StdCoutToPrintRule => StdCoutToPrintRule_visit node
  end.

(** ** Tree visitor and rule engine (terminator.py, section 3) *)

Section GenericVisit.

(** [self.visit], resolved on the instance: the subclass's override when
    there is one. *)
Variable visit : value -> M value.

(** A list field: each element is overwritten with its visited form. *)
Fixpoint visit_items (items : list value) : M (list value) :=
  match items with
  | [] => ret []
  | item :: rest =>
      item' <- visit item ;;
      rest' <- visit_items rest ;;
      ret (item' :: rest')
  end.

(** A field that is not a list: visited when it holds a node. *)
Definition visit_field (v : value) : M value :=
  if is_Node v then visit v else ret v.

(** Fields are taken in [__dict__] order, the order [__init__] assigns
    them.  A scalar has no [__dict__]. *)
Definition generic_visit (node : value) : M value :=
  match node with
  | Scalar _ => raise AttributeError
  | TranslationUnit body =>
      body' <- visit_items body ;;
      ret (TranslationUnit body')
  | FunctionDecl name params body return_type =>
      params' <- visit_items params ;;
      body' <- visit_items body ;;
      ret (FunctionDecl name params' body' return_type)
  | VarDecl name var_type init =>
      init' <- visit_field init ;;
      ret (VarDecl name var_type init')
  | CallExpr callee args =>
      callee' <- visit_field callee ;;
      args' <- visit_items args ;;
      ret (CallExpr callee' args')
  | BinaryOp op left_ right_ =>
      left' <- visit_field left_ ;;
      right' <- visit_field right_ ;;
      ret (BinaryOp op left' right')
  | UnaryOp op operand =>
      operand' <- visit_field operand ;;
      ret (UnaryOp op operand')
  | ForLoop init cond inc body =>
      init' <- visit_field init ;;
      cond' <- visit_field cond ;;
      inc' <- visit_field inc ;;
      body' <- visit_items body ;;
      ret (ForLoop init' cond' inc' body')
  | Identifier name => ret (Identifier name)
  | Literal lit => ret (Literal lit)
  | PythonForLoop target iter body =>
      target' <- visit_field target ;;
      iter' <- visit_field iter ;;
      body' <- visit_items body ;;
      ret (PythonForLoop target' iter' body')
  end.

End GenericVisit.

(** [NodeVisitor.visit] on a plain [NodeVisitor()]: no [visit_<Kind>]
    attribute exists, so [getattr] always yields [generic_visit]. *)
Fixpoint NodeVisitor_visit (node : value) : M value :=
  match node with
  | Scalar _ => ret node
  | _ => generic_visit NodeVisitor_visit node
  end.

(** The loop of [RuleApplier.visit]. *)
Fixpoint apply_rules (rules : list rule) (node : value) : M value :=
  match rules with
  | [] => ret node
  | r :: rest =>
      node' <- Rule_visit r node ;;
      apply_rules rest node'
  end.

(** [RuleApplier.visit].  The recursion descends into the node the rules
    returned, not into the argument, so it is bounded by fuel here. *)
Fixpoint RuleApplier_visit_fuel (fuel : nat) (rules : list rule)
         (node : value) : M value :=
  match fuel with
  | O => fun _ => OutOfFuel
  | S fuel' =>
      node' <- apply_rules rules node ;;
      generic_visit (RuleApplier_visit_fuel fuel' rules) node'
  end.

(** The number of values in a tree. *)
Fixpoint size (v : value) : nat :=
  match v with
  | Scalar _ => 1
  | TranslationUnit body => S (list_sum (map size body))
  | FunctionDecl _ params body _ =>
      S (list_sum (map size params) + list_sum (map size body))
  | VarDecl _ _ init => S (size init)
  | CallExpr callee args => S (size callee + list_sum (map size args))
  | BinaryOp _ left_ right_ => S (size left_ + size right_)
  | UnaryOp _ operand => S (size operand)
  | ForLoop init cond inc body =>
      S (size init + size cond + size inc + list_sum (map size body))
  | Identifier _ => 1
  | Literal _ => 1
  | PythonForLoop target iter body =>
      S (size target + size iter + list_sum (map size body))
  end%nat.

(** The engine as the pipeline calls it.  A node that the rules return is
    never larger than the node they were given ([apply_rules_returns]), so
    fuel one above the size of the tree is never used up, and any larger
    amount gives the same outcome ([RuleApplier_visit_fuel_stable]). *)
Definition RuleApplier_visit (rules : list rule) (node : value) : M value :=
  RuleApplier_visit_fuel (S (size node)) rules node.

(** ** Code generator (terminator.py, section 4; rules.py, lines 67-84)

    Dispatch is by class name.  The nine kinds of the node model have a
    [visit_<Kind>] method in the class body.  [visit_PythonForLoop] is the
    function that [ForLoopToRangeRule.visit] attaches to the class before it
    returns the first [PythonForLoop]; that class is local to the rule, so
    no [PythonForLoop] exists that was built before the method was attached,
    and dispatch on one always finds it.  Every handler returns text, and
    [NodeVisitor.visit] hands a scalar back as it is, so a visit yields a
    scalar. *)

Definition _map_type (cpp_type : string) : option string :=
  let key := remove_const cpp_type in
  if (key =? "int")%string then Some "int"
  else if (key =? "float")%string then Some "float"
  else if (key =? "double")%string then Some "float"
  else if (key =? "bool")%string then Some "bool"
  else if (key =? "std::string")%string then Some "str"
  else if (key =? "string")%string then Some "str"
  else if (key =? "void")%string then Some "None"
  else None.

(** [self._indent()] *)
Definition _indent : M string :=
  fun w => Returns w (repeat_string "    " (Z.to_nat (_indent_level w))).

(** [self._indent_level += d] *)
Definition add_indent (d : Z) : M unit :=
  fun w =>
    Returns (mkWorld (has_visit_PythonForLoop w) (_indent_level w + d)) tt.

Fixpoint strings_of (items : list scalar) : option (list string) :=
  match items with
  | [] => Some []
  | SStr s :: rest =>
      match strings_of rest with
      | Some l => Some (s :: l)
      | None => None
      end
  | _ :: _ => None
  end.

(** [sep.join(...)]: a [TypeError] unless every item is a [str]. *)
Definition join (sep : string) (items : list scalar) : M string :=
  match strings_of items with
  | Some l => ret (join_strings sep l)
  | None => raise TypeError
  end.

Section Handlers.

(** [self.visit] of the generator. *)
Variable visit : value -> M scalar.

(** The items of a generator expression, all produced before [join]
    looks at any of them. *)
Fixpoint visit_each (items : list value) : M (list scalar) :=
  match items with
  | [] => ret []
  | item :: rest =>
      s <- visit item ;;
      l <- visit_each rest ;;
      ret (s :: l)
  end.

(** One pass of [code += f"{self._indent()}{self.visit(stmt)}\n"]. *)
Definition emit_line (stmt : value) : M string :=
  ind <- _indent ;;
  s <- visit stmt ;;
  ret (ind ++ py_str s ++ nl).

(** [for stmt in stmts: code += f"{self._indent()}{self.visit(stmt)}\n"] *)
Fixpoint emit_lines (stmts : list value) : M string :=
  match stmts with
  | [] => ret EmptyString
  | stmt :: rest =>
      line <- emit_line stmt ;;
      more <- emit_lines rest ;;
      ret (line ++ more)
  end.

Definition is_Identifier (v : value) : bool :=
  match v with
  | Identifier _ => true
  | _ => false
  end.

(** [self.visit(child) for child in body if not isinstance(child,
    Identifier)] *)
Fixpoint visit_each_but_Identifier (items : list value) : M (list scalar) :=
  match items with
  | [] => ret []
  | child :: rest =>
      if is_Identifier child then visit_each_but_Identifier rest
      else
        s <- visit child ;;
        l <- visit_each_but_Identifier rest ;;
        ret (s :: l)
  end.

Definition visit_TranslationUnit (body : list value) : M scalar :=
  parts <- visit_each_but_Identifier body ;;
  text <- join (nl ++ nl) parts ;;
  ret (SStr text).

Definition visit_FunctionDecl (name : string) (params body : list value)
           (return_type : string) : M scalar :=
  ps <- visit_each params ;;
  params_text <- join ", " ps ;;
  let return_hint :=
    match _map_type return_type with
    | Some py_type =>
        if negb (py_type =? "None")%string then " -> " ++ py_type
        else EmptyString
    | None => EmptyString
    end in
  let code := "def " ++ name ++ "(" ++ params_text ++ ")" ++ return_hint
              ++ ":" ++ nl in
  add_indent 1 ;;;
  block <- match body with
           | [] => ind <- _indent ;; ret (ind ++ "pass" ++ nl)
           | _ :: _ => emit_lines body
           end ;;
  add_indent (-1) ;;;
  let code := code ++ block in
  if (name =? "main")%string
  then ret (SStr (code ++ nl ++ nl ++ "if __name__ == " ++ dquote
                  ++ "__main__" ++ dquote ++ ":" ++ nl ++ "    main()"))
  else ret (SStr code).

Definition visit_VarDecl (name var_type : string) (init : value) : M scalar :=
  let type_hint :=
    match _map_type var_type with
    | Some py_type => ": " ++ py_type
    | None => EmptyString
    end in
  if truthy init
  then s <- visit init ;; ret (SStr (name ++ type_hint ++ " = " ++ py_str s))
  else ret (SStr (name ++ type_hint ++ " = None")).

Definition visit_CallExpr (callee : value) (args : list value) : M scalar :=
  c <- visit callee ;;
  parts <- visit_each args ;;
  args_text <- join ", " parts ;;
  ret (SStr (py_str c ++ "(" ++ args_text ++ ")")).

Definition visit_BinaryOp (op : string) (left_ right_ : value) : M scalar :=
  l <- visit left_ ;;
  r <- visit right_ ;;
  ret (SStr ("(" ++ py_str l ++ " " ++ op ++ " " ++ py_str r ++ ")")).

Definition visit_UnaryOp (op : string) (operand : value) : M scalar :=
  o <- visit operand ;;
  if (op =? "++")%string then ret (SStr (py_str o ++ " += 1"))
  else if (op =? "--")%string then ret (SStr (py_str o ++ " -= 1"))
  else ret (SStr (op ++ py_str o)).

(** [self.visit(x) if x else placeholder] *)
Definition visit_or (placeholder : string) (x : value) : M string :=
  if truthy x then s <- visit x ;; ret (py_str s) else ret placeholder.

Definition visit_ForLoop (init cond inc : value) (body : list value)
  : M scalar :=
  init_str <- visit_or "# init" init ;;
  cond_str <- visit_or "# cond" cond ;;
  inc_str <- visit_or "# inc" inc ;;
  let code := "# Original C++ for loop was not transformed" ++ nl
              ++ init_str ++ nl
              ++ "while " ++ cond_str ++ ":" ++ nl in
  add_indent 1 ;;;
  block <- emit_lines body ;;
  ind <- _indent ;;
  add_indent (-1) ;;;
  ret (SStr (code ++ block ++ ind ++ inc_str ++ nl)).

Definition visit_Identifier (name : string) : M scalar := ret (SStr name).

Definition visit_Literal (lit : scalar) : M scalar :=
  match lit with
  | SStr s => ret (SStr (dquote ++ s ++ dquote))
  | _ => ret (SStr (py_str lit))
  end.

(** The loop body of [visit_PythonForLoop] for one [stmt]: a node that has
    a [body] attribute contributes the elements of that attribute. *)
Definition emit_PythonForLoop_stmt (stmt : value) : M string :=
  match stmt with
  | TranslationUnit sub => emit_lines sub
  | FunctionDecl _ _ sub _ => emit_lines sub
  | ForLoop _ _ _ sub => emit_lines sub
  | PythonForLoop _ _ sub => emit_lines sub
  | _ => emit_line stmt
  end.

Fixpoint emit_PythonForLoop_body (stmts : list value) : M string :=
  match stmts with
  | [] => ret EmptyString
  | stmt :: rest =>
      first <- emit_PythonForLoop_stmt stmt ;;
      more <- emit_PythonForLoop_body rest ;;
      ret (first ++ more)
  end.

Definition visit_PythonForLoop (target iter : value) (body : list value)
  : M scalar :=
  t <- visit target ;;
  iterable <- visit iter ;;
  let code := "for " ++ py_str t ++ " in range(" ++ py_str iterable ++ "):"
              ++ nl in
  add_indent 1 ;;;
  block <- match body with
           | [] => ind <- _indent ;; ret (ind ++ "pass" ++ nl)
           | _ :: _ => emit_PythonForLoop_body body
           end ;;
  add_indent (-1) ;;;
  ret (SStr (code ++ block)).

End Handlers.

(** [PythonCodeGenerator.visit], inherited from [NodeVisitor]. *)
Fixpoint PythonCodeGenerator_visit (node : value) : M scalar :=
  match node with
  | Scalar s => ret s
  | TranslationUnit body => visit_TranslationUnit PythonCodeGenerator_visit body
  | FunctionDecl name params body return_type =>
      visit_FunctionDecl PythonCodeGenerator_visit name params body return_type
  | VarDecl name var_type init =>
      visit_VarDecl PythonCodeGenerator_visit name var_type init
  | CallExpr callee args => visit_CallExpr PythonCodeGenerator_visit callee args
  | BinaryOp op left_ right_ =>
      visit_BinaryOp PythonCodeGenerator_visit op left_ right_
  | UnaryOp op operand => visit_UnaryOp PythonCodeGenerator_visit op operand
  | ForLoop init cond inc body =>
      visit_ForLoop PythonCodeGenerator_visit init cond inc body
  | Identifier name => visit_Identifier name
  | Literal lit => visit_Literal lit
  | PythonForLoop target iter body =>
      visit_PythonForLoop PythonCodeGenerator_visit target iter body
  end.

(** [PythonCodeGenerator.generate] *)
Definition generate (node : value) : M scalar := PythonCodeGenerator_visit node.

(** ** Notions the statements below are worded in *)

(** The world after the monkey patch of rules.py, lines 87-88. *)
Definition patched (w : world) : world :=
  mkWorld true (_indent_level w).

(** The world with the indentation level moved by [d]. *)
Definition shifted (d : Z) (w : world) : world :=
  mkWorld (has_visit_PythonForLoop w) (_indent_level w + d).

(** The pattern of the counted-loop rule, [for (T i = 0; i < bound; ++i)
    body], as one test; it yields the loop variable, the bound and the
    body. *)
Definition counted_loop (node : value) : option (string * value * list value) :=
  match node with
  | ForLoop (VarDecl i _ (Literal v)) (BinaryOp op (Identifier n) bound)
            (UnaryOp op' (Identifier n')) body =>
      if eq_zero v && (op =? "<")%string && (n =? i)%string
         && (op' =? "++")%string && (n' =? i)%string
      then Some (i, bound, body)
      else None
  | _ => None
  end.

(** Whether applying [r] to [node] reaches the monkey patch. *)
Definition reaches_monkey_patch (r : rule) (node : value) : bool :=
  match r, counted_loop node with
  | ForLoopToRangeRule, Some _ => true
  | _, _ => false
  end.

(** [m], when it returns, has moved the indentation level by [d] and
    changed nothing else. *)
Definition shifts {A} (d : Z) (m : M A) : Prop :=
  forall w w' a, m w = Returns w' a -> w' = shifted d w.

(** Two runs ended, and ended alike. *)
Definition same_and_finished {A} (o1 o2 : outcome A) : Prop :=
  o1 = o2 /\ o1 <> OutOfFuel.

(** [self._indent()] in world [w]. *)
Definition indent_text (w : world) : string :=
  repeat_string "    " (Z.to_nat (_indent_level w)).

(** What [self.visit(v)] contributes to an f-string in world [w], when the
    visit returns. *)
Definition rendering (w : world) (v : value) : option string :=
  match PythonCodeGenerator_visit v w with
  | Returns _ s => Some (py_str s)
  | _ => None
  end.

(** One line per statement, each at the indentation of [w]. *)
Fixpoint block_text (w : world) (stmts : list value) : option string :=
  match stmts with
  | [] => Some EmptyString
  | stmt :: rest =>
      match rendering w stmt, block_text w rest with
      | Some s, Some more => Some ((indent_text w ++ s ++ nl) ++ more)
      | _, _ => None
      end
  end.

(** What stands for a body element in the output of the bounded-iteration
    renderer: the elements of its own [body] when it has that attribute,
    the element itself otherwise. *)
Definition rendered_elements (stmt : value) : list value :=
  match body_attr stmt with
  | Some inner => inner
  | None => [stmt]
  end.

(** A tree of the data model: every child position holds a node, except
    that the initializer of a [VarDecl] may be [None]. *)
Fixpoint conforms (v : value) : bool :=
  match v with
  | Scalar _ => false
  | TranslationUnit body => forallb conforms body
  | FunctionDecl _ params body _ =>
      forallb conforms params && forallb conforms body
  | VarDecl _ _ init =>
      match init with
      | Scalar SNone => true
      | _ => conforms init
      end
  | CallExpr callee args => conforms callee && forallb conforms args
  | BinaryOp _ left_ right_ => conforms left_ && conforms right_
  | UnaryOp _ operand => conforms operand
  | ForLoop init cond inc body =>
      conforms init && conforms cond && conforms inc && forallb conforms body
  | Identifier _ => true
  | Literal _ => true
  | PythonForLoop target iter body =>
      conforms target && conforms iter && forallb conforms body
  end.

(** [visit] returns a [str] on [v], in the world it was called in. *)
Definition returns_text (visit : value -> M scalar) (v : value) : Prop :=
  forall w, exists s, visit v w = Returns w (SStr s).

(** ** Trees used as examples *)

(** [(a << b) << c] *)
Definition shift_chain_not_from_cout : value :=
  BinaryOp "<<" (BinaryOp "<<" (Identifier "a") (Identifier "b"))
           (Identifier "c").

(** [for (int i = 0; i < N; ++i) body] *)
Definition counted_loop_i_N (body : list value) : value :=
  ForLoop (VarDecl "i" "int" (Literal (SInt 0)))
          (BinaryOp "<" (Identifier "i") (Identifier "N"))
          (UnaryOp "++" (Identifier "i"))
          body.

(** The bounded-iteration node for variable [i] and bound [N]. *)
Definition bounded_iteration_i_N (body : list value) : value :=
  PythonForLoop (Identifier "i") (Identifier "N") body.

(** [for (int j = 1; j < M; ++j) x], which the counted-loop rule leaves
    alone. *)
Definition while_loop_over_x : value :=
  ForLoop (VarDecl "j" "int" (Literal (SInt 1)))
          (BinaryOp "<" (Identifier "j") (Identifier "M"))
          (UnaryOp "++" (Identifier "j"))
          [Identifier "x"].

(** [std::cout << "a" << x << std::endl], as a left-associated chain. *)
Definition cout_a_x_endl : value :=
  BinaryOp "<<"
    (BinaryOp "<<"
       (BinaryOp "<<" (Identifier "std::cout") (Literal (SStr "a")))
       (Identifier "x"))
    (Identifier "std::endl").

(** A function [f] whose one statement calls [g] on the plain integer 5,
    not on a [Literal] node. *)
Definition function_calling_g_on_5 : value :=
  FunctionDecl "f" [] [CallExpr (Identifier "g") [Scalar (SInt 5)]] "void".

(** ** Three statements as the specification words them

    The code departs from each of them; they are written down here so that
    the departure can be stated exactly. *)

(** C3 as it is stated: a rule application ends in the world it began in. *)
Definition rule_leaves_world_unchanged (r : rule) (node : value) : Prop :=
  forall w, final_world (Rule_visit r node w) = Some w.

(** C5 as it is stated: the counted loop over [body] becomes the
    bounded-iteration node with the same body, and at level zero that node
    is rendered as the header line followed by every element of [body] on a
    line of its own, one level deeper. *)
Definition counted_loop_renders_each_statement (body : list value) : Prop :=
  forall w text,
    _indent_level w = 0 ->
    block_text (shifted 1 (patched w)) body = Some text ->
    ForLoopToRangeRule_visit (counted_loop_i_N body) w =
      Returns (patched w) (bounded_iteration_i_N body) /\
    generate (bounded_iteration_i_N body) (patched w) =
      Returns (patched w) (SStr ("for i in range(N):" ++ nl ++ text)).

(** C9 as it is stated: whichever way the render of [node] ends, the
    indentation level is what it was at entry. *)
Definition indent_restored_on_every_exit (node : value) : Prop :=
  forall w w',
    final_world (PythonCodeGenerator_visit node w) = Some w' ->
    _indent_level w' = _indent_level w.

(** ** Further notions: rules *)

Definition rule_eqb (r1 r2 : rule) : bool :=
  match r1, r2 with
  | Rule, Rule => true
  | ForLoopToRangeRule, ForLoopToRangeRule => true
  | StdCoutToPrintRule, StdCoutToPrintRule => true
  | _, _ => false
  end.

(** [r] occurs in the rule list. *)
Definition has_rule (r : rule) (rules : list rule) : bool :=
  existsb (rule_eqb r) rules.

(** The nodes [StdCoutToPrintRule] rewrites (rules.py, lines 99-106): a
    [<<] node whose left operand is the identifier [std::cout] or is again
    a [<<] node. *)
Definition cout_pattern (node : value) : bool :=
  match node with
  | BinaryOp op left_ _ =>
      (op =? "<<")%string
      && (is_identifier_named "std::cout" left_ || is_shift_op left_)
  | _ => false
  end.

(** What a rule list makes of one node, as a function of which rules are
    in the list. *)
Definition rewrite_node (rules : list rule) (node : value) : value :=
  match counted_loop node with
  | Some (i, bound, body) =>
      if has_rule ForLoopToRangeRule rules
      then PythonForLoop (Identifier i) bound body
      else node
  | None =>
      if has_rule StdCoutToPrintRule rules && cout_pattern node
      then CallExpr (Identifier "print") (_flatten_cout_chain node)
      else node
  end.

(** The rule list reaches the monkey patch on this node. *)
Definition patches (rules : list rule) (node : value) : bool :=
  has_rule ForLoopToRangeRule rules
  && match counted_loop node with Some _ => true | None => false end.

(** The left-associated chain [root << x1 << ... << xn]. *)
Definition shift_chain (root : value) (operands : list value) : value :=
  fold_left (fun acc x => BinaryOp "<<" acc x) operands root.

(** An operand that [_flatten_cout_chain] keeps. *)
Definition kept_operand (x : value) : bool :=
  negb (is_identifier_named "std::endl" x).

(** ** Further notions: the generator *)

(** [self.visit(v)] returns the [str] [t] and leaves the world as it was. *)
Definition renders_to (w : world) (v : value) (t : string) : Prop :=
  PythonCodeGenerator_visit v w = Returns w (SStr t).

(** The annotation [visit_VarDecl] puts after a name of declared type
    [cpp_type]. *)
Definition type_hint (cpp_type : string) : string :=
  match _map_type cpp_type with
  | Some py_type => ": " ++ py_type
  | None => EmptyString
  end.

(** The annotation [visit_FunctionDecl] puts after the parameter list. *)
Definition return_hint (return_type : string) : string :=
  match _map_type return_type with
  | Some py_type =>
      if (py_type =? "None")%string then EmptyString else " -> " ++ py_type
  | None => EmptyString
  end.

(** What [visit_FunctionDecl] appends for a function of this name. *)
Definition main_trailer (name : string) : string :=
  if (name =? "main")%string
  then nl ++ nl ++ "if __name__ == " ++ dquote ++ "__main__" ++ dquote ++ ":"
       ++ nl ++ "    main()"
  else EmptyString.

(** A parameter as the converter builds it from a [PARM_DECL]: a [VarDecl]
    without initializer. *)
Definition parameter (p : string * string) : value :=
  VarDecl (fst p) (snd p) PyNone.

(** The text of a loop-header part: its rendering, or the placeholder when
    the part is missing. *)
Definition text_or (placeholder : string) (w : world) (x : value)
  : option string :=
  if truthy x then rendering w x else Some placeholder.

(** A tree without block statements: nothing in it is rendered through
    [_indent]. *)
Fixpoint indent_free (v : value) : bool :=
  match v with
  | Scalar _ => true
  | TranslationUnit body => forallb indent_free body
  | FunctionDecl _ _ _ _ => false
  | VarDecl _ _ init => indent_free init
  | CallExpr callee args => indent_free callee && forallb indent_free args
  | BinaryOp _ left_ right_ => indent_free left_ && indent_free right_
  | UnaryOp _ operand => indent_free operand
  | ForLoop _ _ _ _ => false
  | Identifier _ => true
  | Literal _ => true
  | PythonForLoop _ _ _ => false
  end.

(** The outcome [o], had the computation been started in [w] and not
    touched the world. *)
Definition moved_to {A} (w : world) (o : outcome A) : outcome A :=
  match o with
  | Returns _ a => Returns w a
  | Raises _ e => Raises w e
  | OutOfFuel => OutOfFuel
  end.

(** [m] neither reads nor writes the world. *)
Definition world_blind {A} (m : M A) : Prop :=
  forall w1 w2, m w2 = moved_to w2 (m w1).

(** When [m] raises, the generator class is as before and the indentation
    level is not below the one [m] started with. *)
Definition raises_not_below {A} (m : M A) : Prop :=
  forall w w' e,
    m w = Raises w' e ->
    has_visit_PythonForLoop w' = has_visit_PythonForLoop w /\
    _indent_level w <= _indent_level w'.

Definition never_raises {A} (m : M A) : Prop :=
  forall w w' e, m w <> Raises w' e.

(** ** Further notions: the rule engine *)

(** The tree holds a bounded-iteration node. *)
Fixpoint contains_PythonForLoop (v : value) : bool :=
  match v with
  | Scalar _ => false
  | TranslationUnit body => existsb contains_PythonForLoop body
  | FunctionDecl _ params body _ =>
      existsb contains_PythonForLoop params
      || existsb contains_PythonForLoop body
  | VarDecl _ _ init => contains_PythonForLoop init
  | CallExpr callee args =>
      contains_PythonForLoop callee || existsb contains_PythonForLoop args
  | BinaryOp _ left_ right_ =>
      contains_PythonForLoop left_ || contains_PythonForLoop right_
  | UnaryOp _ operand => contains_PythonForLoop operand
  | ForLoop init cond inc body =>
      contains_PythonForLoop init || contains_PythonForLoop cond
      || contains_PythonForLoop inc || existsb contains_PythonForLoop body
  | Identifier _ => false
  | Literal _ => false
  | PythonForLoop _ _ _ => true
  end.

(** No rule of the list rewrites this node. *)
Definition unmatched (rules : list rule) (v : value) : bool :=
  negb (patches rules v)
  && negb (has_rule StdCoutToPrintRule rules && cout_pattern v).

(** No rule of the list rewrites any node of the tree. *)
Fixpoint settled (rules : list rule) (v : value) : bool :=
  unmatched rules v &&
  match v with
  | Scalar _ => true
  | TranslationUnit body => forallb (settled rules) body
  | FunctionDecl _ params body _ =>
      forallb (settled rules) params && forallb (settled rules) body
  | VarDecl _ _ init => settled rules init
  | CallExpr callee args =>
      settled rules callee && forallb (settled rules) args
  | BinaryOp _ left_ right_ => settled rules left_ && settled rules right_
  | UnaryOp _ operand => settled rules operand
  | ForLoop init cond inc body =>
      settled rules init && settled rules cond && settled rules inc
      && forallb (settled rules) body
  | Identifier _ => true
  | Literal _ => true
  | PythonForLoop target iter body =>
      settled rules target && settled rules iter
      && forallb (settled rules) body
  end.

(** What the tests of the rules can see of [v'] they could already see of
    [v]. *)
Definition reflects (v v' : value) : Prop :=
  (forall n, v' = Identifier n -> v = Identifier n) /\
  (forall l, v' = Literal l -> v = Literal l) /\
  (is_shift_op v' = true -> is_shift_op v = true) /\
  (forall i t l, v' = VarDecl i t (Literal l) -> v = VarDecl i t (Literal l)) /\
  (forall op n b',
      v' = BinaryOp op (Identifier n) b' ->
      exists b, v = BinaryOp op (Identifier n) b) /\
  (forall op n, v' = UnaryOp op (Identifier n) -> v = UnaryOp op (Identifier n)).

(** The world [w'] is [w], or [w] after the monkey patch. *)
Definition stepped (w w' : world) : Prop := w' = w \/ w' = patched w.

(** What the engine makes of a tree of the data model. *)
Definition engine_result (rules : list rule) (v : value) (w w' : world)
           (v' : value) : Prop :=
  conforms v' = true /\
  settled rules v' = true /\
  reflects v v' /\
  (size v' <= size v)%nat /\
  stepped w w' /\
  (contains_PythonForLoop v' = true ->
   contains_PythonForLoop v = true \/ has_visit_PythonForLoop w' = true).

(** [Terminator.convert].  The parser is the libclang front end, which is
    outside this development: it is a parameter here, any computation that
    delivers an internal tree or raises. *)
Definition Terminator_convert (parse : string -> M value)
           (active_rules : list rule) (cpp_code : string) : M scalar :=
  internal_ast <- parse cpp_code ;;
  modified_ast <- RuleApplier_visit active_rules internal_ast ;;
  generate modified_ast.

(** [isinstance(s, str)] *)
Definition is_str (s : scalar) : bool :=
  match s with
  | SStr _ => true
  | _ => false
  end.

(** ** The engine over arbitrary rule objects

    [RuleApplier] takes any list of objects that have a [visit] method; the
    three classes of rules.py are what the command line offers, not what
    the engine is limited to.  A rule object is represented by its [visit]
    method. *)

Definition rule_object : Type := value -> M value.

(** The loop of [RuleApplier.visit], lines 215-217. *)
Fixpoint visit_with_each_rule (rules : list rule_object) (node : value)
  : M value :=
  match rules with
  | [] => ret node
  | r :: rest =>
      node' <- r node ;;
      visit_with_each_rule rest node'
  end.

(** [RuleApplier.visit] for a list of rule objects.  A rule may return a
    larger node than it was given, so nothing bounds the recursion but the
    fuel. *)
Fixpoint RuleApplier_visit_any (fuel : nat) (rules : list rule_object)
         (node : value) : M value :=
  match fuel with
  | O => fun _ => OutOfFuel
  | S fuel' =>
      node' <- visit_with_each_rule rules node ;;
      generic_visit (RuleApplier_visit_any fuel' rules) node'
  end.

(** A rule a user of the engine could write: it renames one identifier. *)
Definition rename_rule (old new : string) : rule_object :=
  fun node =>
    if is_identifier_named old node then ret (Identifier new) else ret node.

(** ** Pre-order rewriting, as the specification words it

    "At each node, every rule is offered the node in order (the output of
    rule k becomes the input to rule k+1), and only after all rules have
    had a chance does the engine descend into the (possibly replaced)
    node's children."  The four relations below say that and nothing about
    how it is computed: [rules_in_order] is the first half of the sentence,
    [rewrite_then_descend] the whole of it, and [children_processed] spells
    out the descent kind by kind: every element of a sequence field and
    every field that holds a node is replaced by what the same processing
    makes of it, from the first field to the last, and everything else
    stays. *)

Inductive rules_in_order
  : list rule_object -> value -> world -> value -> world -> Prop :=
| no_rule_left node w : rules_in_order [] node w node w
| next_rule r rest node w node1 w1 node' w' :
    r node w = Returns w1 node1 ->
    rules_in_order rest node1 w1 node' w' ->
    rules_in_order (r :: rest) node w node' w'.

Inductive rewrite_then_descend (rules : list rule_object)
  : value -> world -> value -> world -> Prop :=
| rewritten_then_descended node w node1 w1 node' w' :
    rules_in_order rules node w node1 w1 ->
    children_processed rules node1 w1 node' w' ->
    rewrite_then_descend rules node w node' w'

with children_processed (rules : list rule_object)
  : value -> world -> value -> world -> Prop :=
| in_TranslationUnit body w body' w' :
    each_processed rules body w body' w' ->
    children_processed rules (TranslationUnit body) w
                       (TranslationUnit body') w'
| in_FunctionDecl name params body return_type w params' w1 body' w' :
    each_processed rules params w params' w1 ->
    each_processed rules body w1 body' w' ->
    children_processed rules (FunctionDecl name params body return_type) w
                       (FunctionDecl name params' body' return_type) w'
| in_VarDecl name var_type init w init' w' :
    field_processed rules init w init' w' ->
    children_processed rules (VarDecl name var_type init) w
                       (VarDecl name var_type init') w'
| in_CallExpr callee args w callee' w1 args' w' :
    field_processed rules callee w callee' w1 ->
    each_processed rules args w1 args' w' ->
    children_processed rules (CallExpr callee args) w
                       (CallExpr callee' args') w'
| in_BinaryOp op l r w l' w1 r' w' :
    field_processed rules l w l' w1 ->
    field_processed rules r w1 r' w' ->
    children_processed rules (BinaryOp op l r) w (BinaryOp op l' r') w'
| in_UnaryOp op operand w operand' w' :
    field_processed rules operand w operand' w' ->
    children_processed rules (UnaryOp op operand) w (UnaryOp op operand') w'
| in_ForLoop init cond inc body w init' w1 cond' w2 inc' w3 body' w' :
    field_processed rules init w init' w1 ->
    field_processed rules cond w1 cond' w2 ->
    field_processed rules inc w2 inc' w3 ->
    each_processed rules body w3 body' w' ->
    children_processed rules (ForLoop init cond inc body) w
                       (ForLoop init' cond' inc' body') w'
| in_Identifier name w :
    children_processed rules (Identifier name) w (Identifier name) w
| in_Literal lit w :
    children_processed rules (Literal lit) w (Literal lit) w
| in_PythonForLoop target iter body w target' w1 iter' w2 body' w' :
    field_processed rules target w target' w1 ->
    field_processed rules iter w1 iter' w2 ->
    each_processed rules body w2 body' w' ->
    children_processed rules (PythonForLoop target iter body) w
                       (PythonForLoop target' iter' body') w'

with each_processed (rules : list rule_object)
  : list value -> world -> list value -> world -> Prop :=
| none_left w : each_processed rules [] w [] w
| first_then_rest item w item' w1 rest rest' w' :
    rewrite_then_descend rules item w item' w1 ->
    each_processed rules rest w1 rest' w' ->
    each_processed rules (item :: rest) w (item' :: rest') w'

with field_processed (rules : list rule_object)
  : value -> world -> value -> world -> Prop :=
| field_with_node child w child' w' :
    is_Node child = true ->
    rewrite_then_descend rules child w child' w' ->
    field_processed rules child w child' w'
| field_without_node child w :
    is_Node child = false ->
    field_processed rules child w child w.

Scheme rewrite_then_descend_mut :=
  Minimality for rewrite_then_descend Sort Prop
with children_processed_mut :=
  Minimality for children_processed Sort Prop
with each_processed_mut :=
  Minimality for each_processed Sort Prop
with field_processed_mut :=
  Minimality for field_processed Sort Prop.

Combined Scheme processing_ind
  from rewrite_then_descend_mut, children_processed_mut,
       each_processed_mut, field_processed_mut.

(** [P] holds for every amount of fuel from some amount on. *)
Definition from_some_fuel_on (P : nat -> Prop) : Prop :=
  exists fuel, forall fuel', (fuel <= fuel')%nat -> P fuel'.

(** ** Induction over trees *)

Section ValueInduction.

Variable P : value -> Prop.

Hypothesis P_Scalar : forall s, P (Scalar s).
Hypothesis P_TranslationUnit :
  forall body, Forall P body -> P (TranslationUnit body).
Hypothesis P_FunctionDecl :
  forall name params body return_type,
    Forall P params -> Forall P body ->
    P (FunctionDecl name params body return_type).
Hypothesis P_VarDecl :
  forall name var_type init, P init -> P (VarDecl name var_type init).
Hypothesis P_CallExpr :
  forall callee args, P callee -> Forall P args -> P (CallExpr callee args).
Hypothesis P_BinaryOp :
  forall op l r, P l -> P r -> P (BinaryOp op l r).
Hypothesis P_UnaryOp :
  forall op operand, P operand -> P (UnaryOp op operand).
Hypothesis P_ForLoop :
  forall init cond inc body,
    P init -> P cond -> P inc -> Forall P body ->
    P (ForLoop init cond inc body).
Hypothesis P_Identifier : forall name, P (Identifier name).
Hypothesis P_Literal : forall lit, P (Literal lit).
Hypothesis P_PythonForLoop :
  forall target iter body,
    P target -> P iter -> Forall P body ->
    P (PythonForLoop target iter body).

Fixpoint value_tree_ind (v : value) : P v :=
  let all :=
    fix all (l : list value) : Forall P l :=
      match l with
      | [] => Forall_nil P
      | x :: xs => Forall_cons x (value_tree_ind x) (all xs)
      end in
  match v with
  | Scalar s => P_Scalar s
  | TranslationUnit body => P_TranslationUnit body (all body)
  | FunctionDecl name params body return_type =>
      P_FunctionDecl name params body return_type (all params) (all body)
  | VarDecl name var_type init =>
      P_VarDecl name var_type init (value_tree_ind init)
  | CallExpr callee args =>
      P_CallExpr callee args (value_tree_ind callee) (all args)
  | BinaryOp op l r => P_BinaryOp op l r (value_tree_ind l) (value_tree_ind r)
  | UnaryOp op operand => P_UnaryOp op operand (value_tree_ind operand)
  | ForLoop init cond inc body =>
      P_ForLoop init cond inc body (value_tree_ind init)
                (value_tree_ind cond) (value_tree_ind inc) (all body)
  | Identifier name => P_Identifier name
  | Literal lit => P_Literal lit
  | PythonForLoop target iter body =>
      P_PythonForLoop target iter body (value_tree_ind target)
                      (value_tree_ind iter) (all body)
  end.

End ValueInduction.

(** ** Reasoning about the monad *)

Lemma bind_Returns {A B} (m : M A) (k : A -> M B) w w' b :
  bind m k w = Returns w' b ->
  exists w1 a, m w = Returns w1 a /\ k a w1 = Returns w' b.
Proof.
  unfold bind. destruct (m w) as [w1 a| |]; try discriminate.
  intros H. exists w1, a. split; [reflexivity | exact H].
Qed.

Lemma bind_of_Returns {A B} (m : M A) (k : A -> M B) w w1 a :
  m w = Returns w1 a -> bind m k w = k a w1.
Proof. unfold bind. intros ->. reflexivity. Qed.

Lemma bind_of_Raises {A B} (m : M A) (k : A -> M B) w w1 e :
  m w = Raises w1 e -> bind m k w = Raises w1 e.
Proof. unfold bind. intros ->. reflexivity. Qed.

Lemma bind_assoc {A B C} (m : M A) (k : A -> M B) (h : B -> M C) w :
  bind (bind m k) h w = bind m (fun a => bind (k a) h) w.
Proof. unfold bind. destruct (m w); reflexivity. Qed.

Lemma size_pos v : (1 <= size v)%nat.
Proof. destruct v; simpl; lia. Qed.

Lemma size_In x l : In x l -> (size x <= list_sum (map size l))%nat.
Proof.
  induction l as [|y l IH]; simpl; [tauto|].
  intros [->|H]; [lia | specialize (IH H); lia].
Qed.

(** ** What the rules return *)

Lemma monkey_patch_run w :
  monkey_patch w =
  Returns (mkWorld (has_visit_PythonForLoop w || true) (_indent_level w)) tt.
Proof.
  unfold monkey_patch. destruct w as [[|] k]; reflexivity.
Qed.

Lemma ForLoopToRangeRule_visit_spec node w :
  ForLoopToRangeRule_visit node w =
  match counted_loop node with
  | Some (i, bound, body) =>
      Returns (patched w) (PythonForLoop (Identifier i) bound body)
  | None => Returns w node
  end.
Proof.
  destruct node as [ | | | | | | |init cond inc body| | | ]; try reflexivity.
  destruct init as [ | | |i ty ini| | | | | | | ]; try reflexivity.
  destruct ini as [ | | | | | | | | |v| ]; try reflexivity.
  unfold ForLoopToRangeRule_visit, counted_loop.
  destruct (eq_zero v);
    destruct cond as [ | | | | |op [ | | | | | | | |n| | ] bound| | | | | ];
    try reflexivity;
    destruct (op =? "<")%string; destruct (n =? i)%string;
    destruct inc as [ | | | | | |op' [ | | | | | | | |n'| | ]| | | | ];
    try reflexivity;
    destruct (op' =? "++")%string; destruct (n' =? i)%string;
    try reflexivity.
  simpl. unfold bind. rewrite monkey_patch_run, orb_true_r. reflexivity.
Qed.

Lemma counted_loop_size node i bound body :
  counted_loop node = Some (i, bound, body) ->
  (size (PythonForLoop (Identifier i) bound body) <= size node)%nat.
Proof.
  destruct node as [ | | | | | | |init cond inc body'| | | ]; try discriminate.
  destruct init as [ | | |i' ty [ | | | | | | | | |v| ]| | | | | | | ];
    try discriminate.
  destruct cond as [ | | | | |op [ | | | | | | | |n| | ] bound'| | | | | ];
    try discriminate.
  destruct inc as [ | | | | | |op' [ | | | | | | | |n'| | ]| | | | ];
    try discriminate.
  unfold counted_loop.
  destruct (eq_zero v && (op =? "<")%string && (n =? i')%string
            && (op' =? "++")%string && (n' =? i')%string); [|discriminate].
  intros [= <- <- <-]. simpl. lia.
Qed.

Lemma flatten_cout_chain_BinaryOp op l r :
  _flatten_cout_chain (BinaryOp op l r) =
  ((if is_shift_op l then _flatten_cout_chain l else [])
   ++ (if is_identifier_named "std::endl" r then [] else [r]))%list.
Proof. simpl. destruct (is_shift_op l); reflexivity. Qed.

Lemma flatten_cout_chain_size op l r :
  (list_sum (map size (_flatten_cout_chain (BinaryOp op l r))) + 2
   <= size (BinaryOp op l r))%nat.
Proof.
  revert op r. induction l; intros op0 r0;
    rewrite flatten_cout_chain_BinaryOp, map_app, list_sum_app;
    match goal with
    | |- context [size (BinaryOp op0 ?x r0)] =>
        change (size (BinaryOp op0 x r0)) with (S (size x + size r0));
        pose proof (size_pos x)
    end;
    assert (list_sum (map size
              (if is_identifier_named "std::endl" r0 then [] else [r0]))
            <= size r0)%nat
      by (destruct (is_identifier_named "std::endl" r0); simpl; lia);
    try (simpl is_shift_op; cbv iota; simpl list_sum at 1; lia).
  simpl is_shift_op. specialize (IHl1 op l2).
  destruct (op =? "<<")%string; [lia | simpl list_sum at 1; lia].
Qed.

Lemma StdCoutToPrintRule_visit_returns node w :
  exists node',
    StdCoutToPrintRule_visit node w = Returns w node' /\
    (size node' <= size node)%nat.
Proof.
  destruct node as [ | | | | |op l r| | | | | ];
    try (eexists; split; [reflexivity | lia]).
  unfold StdCoutToPrintRule_visit.
  destruct (negb (op =? "<<")%string);
    [eexists; split; [reflexivity | lia]|].
  destruct (negb (is_identifier_named "std::cout" l) && negb (is_shift_op l));
    [eexists; split; [reflexivity | lia]|].
  eexists; split; [reflexivity|].
  pose proof (flatten_cout_chain_size op l r).
  change (size (CallExpr (Identifier "print")
                         (_flatten_cout_chain (BinaryOp op l r))))
    with (S (1 + list_sum (map size (_flatten_cout_chain (BinaryOp op l r))))).
  lia.
Qed.

(** No rule raises, none touches [_indent_level], and none returns a larger
    node than it was given. *)
Lemma Rule_visit_returns r node w :
  exists w' node',
    Rule_visit r node w = Returns w' node' /\
    (size node' <= size node)%nat /\
    _indent_level w' = _indent_level w.
Proof.
  destruct r; simpl.
  - exists w, node. repeat split; lia.
  - rewrite ForLoopToRangeRule_visit_spec.
    destruct (counted_loop node) as [[[i bound] body]|] eqn:E.
    + exists (patched w), (PythonForLoop (Identifier i) bound body).
      repeat split. apply counted_loop_size, E.
    + exists w, node. repeat split; lia.
  - destruct (StdCoutToPrintRule_visit_returns node w) as (n' & H & Hs).
    exists w, n'. repeat split; assumption.
Qed.

Lemma apply_rules_returns rules node w :
  exists w' node',
    apply_rules rules node w = Returns w' node' /\
    (size node' <= size node)%nat /\
    _indent_level w' = _indent_level w.
Proof.
  revert node w. induction rules as [|r rest IH]; intros node w.
  - exists w, node. repeat split; lia.
  - destruct (Rule_visit_returns r node w) as (w1 & n1 & H1 & S1 & I1).
    destruct (IH n1 w1) as (w2 & n2 & H2 & S2 & I2).
    exists w2, n2. simpl. rewrite (bind_of_Returns _ _ _ _ _ H1).
    repeat split; [exact H2 | lia | congruence].
Qed.

Lemma apply_rules_app rules1 rules2 node w :
  apply_rules (rules1 ++ rules2) node w =
  (node1 <- apply_rules rules1 node ;; apply_rules rules2 node1) w.
Proof.
  revert node w. induction rules1 as [|r rest IH]; intros node w.
  - reflexivity.
  - destruct (Rule_visit_returns r node w) as (w1 & n1 & H1 & _).
    simpl. rewrite bind_assoc, !(bind_of_Returns _ _ _ _ _ H1). apply IH.
Qed.

(** ** The rule engine never runs out of fuel *)

Lemma bind_same_and_finished {A B} (m1 m2 : M A) (k1 k2 : A -> M B) w :
  same_and_finished (m1 w) (m2 w) ->
  (forall a w', same_and_finished (k1 a w') (k2 a w')) ->
  same_and_finished (bind m1 k1 w) (bind m2 k2 w).
Proof.
  intros [E F] K. unfold bind. rewrite <- E.
  destruct (m1 w) as [w' a|w' e|]; [apply K | split; congruence | congruence].
Qed.

Lemma ret_same_and_finished {A} (a : A) w :
  same_and_finished (ret a w) (ret a w).
Proof. split; [reflexivity | discriminate]. Qed.

Section Agreement.

Variables visit1 visit2 : value -> M value.
Variable bound : nat.
Hypothesis agree :
  forall c w, (size c <= bound)%nat ->
              same_and_finished (visit1 c w) (visit2 c w).

Lemma visit_items_agree items w :
  (list_sum (map size items) <= bound)%nat ->
  same_and_finished (visit_items visit1 items w) (visit_items visit2 items w).
Proof.
  revert w. induction items as [|x rest IH]; intros w Hs; simpl in *.
  - apply ret_same_and_finished.
  - apply bind_same_and_finished; [apply agree; lia|].
    intros a w'. apply bind_same_and_finished; [apply IH; lia|].
    intros. apply ret_same_and_finished.
Qed.

Lemma visit_field_agree c w :
  (size c <= bound)%nat ->
  same_and_finished (visit_field visit1 c w) (visit_field visit2 c w).
Proof.
  intros Hs. unfold visit_field.
  destruct (is_Node c); [apply agree, Hs | apply ret_same_and_finished].
Qed.

Lemma generic_visit_agree node w :
  (size node <= S bound)%nat ->
  same_and_finished (generic_visit visit1 node w) (generic_visit visit2 node w).
Proof.
  intros Hs.
  destruct node; simpl in *;
    try (split; [reflexivity | discriminate]);
    repeat first
      [ apply ret_same_and_finished
      | apply bind_same_and_finished;
        [ first [ apply visit_field_agree; lia | apply visit_items_agree; lia ]
        | intros ] ].
Qed.

End Agreement.

Lemma RuleApplier_visit_fuel_stable rules n :
  forall node fuel1 fuel2 w,
    (size node <= n)%nat -> (n < fuel1)%nat -> (n < fuel2)%nat ->
    same_and_finished (RuleApplier_visit_fuel fuel1 rules node w)
                      (RuleApplier_visit_fuel fuel2 rules node w).
Proof.
  induction n as [|n IH]; intros node fuel1 fuel2 w Hs H1 H2.
  - pose proof (size_pos node). lia.
  - destruct fuel1 as [|f1]; [lia|]. destruct fuel2 as [|f2]; [lia|].
    simpl.
    destruct (apply_rules_returns rules node w) as (w1 & n1 & E & S1 & _).
    rewrite !(bind_of_Returns _ _ _ _ _ E).
    apply generic_visit_agree with (bound := n); [|lia].
    intros c w' Hc. apply IH; lia.
Qed.

(** ** The generator's state on normal return *)

Lemma shifted_0 w : shifted 0 w = w.
Proof. destruct w as [f k]. unfold shifted. simpl. f_equal. lia. Qed.

Lemma shifted_shifted d1 d2 w : shifted d2 (shifted d1 w) = shifted (d1 + d2) w.
Proof. unfold shifted. simpl. f_equal. lia. Qed.

Lemma shifts_ret {A} (a : A) : shifts 0 (ret a).
Proof. intros w w' b [= <- _]. symmetry. apply shifted_0. Qed.

Lemma shifts_raise {A} e d : shifts d (@raise A e).
Proof. intros w w' b. discriminate. Qed.

Lemma shifts_bind {A B} d1 d2 d (m : M A) (k : A -> M B) :
  shifts d1 m -> (forall a, shifts d2 (k a)) -> d = d1 + d2 ->
  shifts d (bind m k).
Proof.
  intros Hm Hk -> w w' b H.
  apply bind_Returns in H as (w1 & a & H1 & H2).
  apply Hm in H1. apply Hk in H2. subst. apply shifted_shifted.
Qed.

Lemma shifts_indent : shifts 0 _indent.
Proof. intros w w' b [= <- _]. symmetry. apply shifted_0. Qed.

Lemma shifts_add_indent d : shifts d (add_indent d).
Proof. intros w w' b [= <- _]. reflexivity. Qed.

Lemma shifts_join sep items : shifts 0 (join sep items).
Proof.
  unfold join. destruct (strings_of items);
    [apply shifts_ret | apply shifts_raise].
Qed.

Lemma shifts_bind_0 {A B} (m : M A) (k : A -> M B) :
  shifts 0 m -> (forall a, shifts 0 (k a)) -> shifts 0 (bind m k).
Proof. intros. eapply shifts_bind; eauto. Qed.

Lemma shifts_bind_inside {A B} (m : M A) (k : A -> M B) :
  shifts 0 m -> (forall a, shifts (-1) (k a)) -> shifts (-1) (bind m k).
Proof. intros. eapply shifts_bind; eauto. Qed.

(** Entering an indented block ... *)
Lemma shifts_enter {B} (k : M B) :
  shifts (-1) k -> shifts 0 (add_indent 1 ;;; k).
Proof.
  intros. eapply shifts_bind; [apply shifts_add_indent | eauto | reflexivity].
Qed.

(** ... and leaving it. *)
Lemma shifts_leave {B} (k : M B) :
  shifts 0 k -> shifts (-1) (add_indent (-1) ;;; k).
Proof.
  intros. eapply shifts_bind; [apply shifts_add_indent | eauto | reflexivity].
Qed.

Section HandlersShift.

Variable visit : value -> M scalar.

Lemma shifts_visit_each items :
  Forall (fun c => shifts 0 (visit c)) items ->
  shifts 0 (visit_each visit items).
Proof.
  induction 1 as [|x l Hx Hl IH]; simpl.
  - apply shifts_ret.
  - eapply shifts_bind; [exact Hx | intro | reflexivity].
    eapply shifts_bind; [exact IH | intro; apply shifts_ret | reflexivity].
Qed.

Lemma shifts_visit_each_but_Identifier items :
  Forall (fun c => shifts 0 (visit c)) items ->
  shifts 0 (visit_each_but_Identifier visit items).
Proof.
  induction 1 as [|x l Hx Hl IH]; simpl.
  - apply shifts_ret.
  - destruct (is_Identifier x); [exact IH|].
    eapply shifts_bind; [exact Hx | intro | reflexivity].
    eapply shifts_bind; [exact IH | intro; apply shifts_ret | reflexivity].
Qed.

Lemma shifts_emit_line stmt :
  shifts 0 (visit stmt) -> shifts 0 (emit_line visit stmt).
Proof.
  intros H. unfold emit_line.
  eapply shifts_bind; [apply shifts_indent | intro | reflexivity].
  eapply shifts_bind; [exact H | intro; apply shifts_ret | reflexivity].
Qed.

Lemma shifts_emit_lines stmts :
  Forall (fun c => shifts 0 (visit c)) stmts ->
  shifts 0 (emit_lines visit stmts).
Proof.
  induction 1 as [|x l Hx Hl IH]; simpl.
  - apply shifts_ret.
  - eapply shifts_bind; [apply shifts_emit_line, Hx | intro | reflexivity].
    eapply shifts_bind; [exact IH | intro; apply shifts_ret | reflexivity].
Qed.

Lemma shifts_visit_or placeholder x :
  shifts 0 (visit x) -> shifts 0 (visit_or visit placeholder x).
Proof.
  intros H. unfold visit_or. destruct (truthy x); [|apply shifts_ret].
  eapply shifts_bind; [exact H | intro; apply shifts_ret | reflexivity].
Qed.

Lemma shifts_emit_PythonForLoop_body stmts :
  Forall (fun c => shifts 0 (emit_PythonForLoop_stmt visit c)) stmts ->
  shifts 0 (emit_PythonForLoop_body visit stmts).
Proof.
  induction 1 as [|x l Hx Hl IH]; simpl.
  - apply shifts_ret.
  - eapply shifts_bind; [exact Hx | intro | reflexivity].
    eapply shifts_bind; [exact IH | intro; apply shifts_ret | reflexivity].
Qed.

End HandlersShift.

Ltac split_hyps :=
  repeat match goal with
         | H : Forall (fun _ => _ /\ _) _ |- _ =>
             apply Forall_and_inv in H; destruct H
         | H : _ /\ _ |- _ => destruct H
         end.

Ltac shifts_tac :=
  repeat first
    [ assumption
    | apply shifts_ret
    | apply shifts_raise
    | apply shifts_indent
    | apply shifts_join
    | apply shifts_visit_each
    | apply shifts_visit_each_but_Identifier
    | apply shifts_emit_lines
    | apply shifts_emit_line
    | apply shifts_visit_or
    | apply shifts_emit_PythonForLoop_body
    | apply shifts_enter
    | apply shifts_leave
    | apply shifts_bind_0; [ | intro ]
    | apply shifts_bind_inside; [ | intro ]
    | match goal with
      | |- shifts _ (match ?b with _ => _ end) => destruct b
      end ].

(** A render that returns leaves the world as it found it: the same
    indentation level and the same generator class. *)
Lemma visit_shifts_0 node :
  shifts 0 (PythonCodeGenerator_visit node) /\
  shifts 0 (emit_PythonForLoop_stmt PythonCodeGenerator_visit node).
Proof.
  induction node using value_tree_ind; split_hyps.
  - split; shifts_tac.
  - split; [|simpl; shifts_tac].
    change (shifts 0 (visit_TranslationUnit PythonCodeGenerator_visit body)).
    unfold visit_TranslationUnit. shifts_tac.
  - split; [|simpl; shifts_tac].
    change (shifts 0 (visit_FunctionDecl PythonCodeGenerator_visit
                                          name params body return_type)).
    unfold visit_FunctionDecl. shifts_tac.
  - assert (shifts 0 (PythonCodeGenerator_visit (VarDecl name var_type node))).
    { change (shifts 0 (visit_VarDecl PythonCodeGenerator_visit
                                       name var_type node)).
      unfold visit_VarDecl. shifts_tac. }
    split; [|unfold emit_PythonForLoop_stmt]; shifts_tac.
  - assert (shifts 0 (PythonCodeGenerator_visit (CallExpr node args))).
    { change (shifts 0 (visit_CallExpr PythonCodeGenerator_visit node args)).
      unfold visit_CallExpr. shifts_tac. }
    split; [|unfold emit_PythonForLoop_stmt]; shifts_tac.
  - assert (shifts 0 (PythonCodeGenerator_visit (BinaryOp op node1 node2))).
    { change (shifts 0 (visit_BinaryOp PythonCodeGenerator_visit
                                        op node1 node2)).
      unfold visit_BinaryOp. shifts_tac. }
    split; [|unfold emit_PythonForLoop_stmt]; shifts_tac.
  - assert (shifts 0 (PythonCodeGenerator_visit (UnaryOp op node))).
    { change (shifts 0 (visit_UnaryOp PythonCodeGenerator_visit op node)).
      unfold visit_UnaryOp. shifts_tac. }
    split; [|unfold emit_PythonForLoop_stmt]; shifts_tac.
  - split; [|simpl; shifts_tac].
    change (shifts 0 (visit_ForLoop PythonCodeGenerator_visit
                                     node1 node2 node3 body)).
    unfold visit_ForLoop. shifts_tac.
  - split; [|unfold emit_PythonForLoop_stmt]; shifts_tac.
  - assert (shifts 0 (PythonCodeGenerator_visit (Literal lit)))
      by (destruct lit; apply shifts_ret).
    split; [|unfold emit_PythonForLoop_stmt]; shifts_tac.
  - split; [|simpl; shifts_tac].
    change (shifts 0 (visit_PythonForLoop PythonCodeGenerator_visit
                                           node1 node2 body)).
    unfold visit_PythonForLoop. shifts_tac.
Qed.

(** ** The text the generator produces *)

Lemma append_nil_r s : s ++ EmptyString = s.
Proof. induction s; simpl; congruence. Qed.

Lemma append_assoc s1 s2 s3 : (s1 ++ s2) ++ s3 = s1 ++ s2 ++ s3.
Proof. induction s1; simpl; congruence. Qed.

Lemma visit_Returns_same node w w' s :
  PythonCodeGenerator_visit node w = Returns w' s -> w' = w.
Proof.
  intros H. apply (proj1 (visit_shifts_0 node)) in H.
  rewrite H. apply shifted_0.
Qed.

Lemma rendering_Some w v s :
  rendering w v = Some s ->
  exists sc, PythonCodeGenerator_visit v w = Returns w sc /\ py_str sc = s.
Proof.
  unfold rendering.
  destruct (PythonCodeGenerator_visit v w) as [w' sc| |] eqn:E; try discriminate.
  intros [= <-]. apply visit_Returns_same in E as E'. subst w'.
  exists sc. split; reflexivity.
Qed.

Lemma visit_or_rendering placeholder w v s :
  truthy v = true -> rendering w v = Some s ->
  visit_or PythonCodeGenerator_visit placeholder v w = Returns w s.
Proof.
  intros T R. apply rendering_Some in R as (sc & E & <-).
  unfold visit_or. rewrite T. rewrite (bind_of_Returns _ _ _ _ _ E).
  reflexivity.
Qed.

Lemma emit_lines_block_text w stmts text :
  block_text w stmts = Some text ->
  emit_lines PythonCodeGenerator_visit stmts w = Returns w text.
Proof.
  revert text. induction stmts as [|stmt rest IH]; simpl; intros text.
  - intros [= <-]. reflexivity.
  - destruct (rendering w stmt) as [s|] eqn:R; [|discriminate].
    destruct (block_text w rest) as [more|]; [|discriminate].
    intros [= <-]. apply rendering_Some in R as (sc & E & <-).
    unfold emit_line, bind at 1 2 3. unfold _indent at 1.
    rewrite E. unfold ret at 1. unfold bind. rewrite (IH more eq_refl).
    reflexivity.
Qed.

Lemma block_text_app w l1 l2 text :
  block_text w (l1 ++ l2) = Some text ->
  exists t1 t2,
    block_text w l1 = Some t1 /\ block_text w l2 = Some t2 /\ text = t1 ++ t2.
Proof.
  revert text. induction l1 as [|x l1 IH]; simpl; intros text H.
  - exists EmptyString, text. repeat split. exact H.
  - destruct (rendering w x) as [s|]; [|discriminate].
    destruct (block_text w (l1 ++ l2)) as [more|]; [|discriminate].
    destruct (IH more eq_refl) as (t1 & t2 & -> & -> & ->).
    injection H as <-. eexists _, t2. repeat split.
    symmetry. apply append_assoc.
Qed.

Lemma emit_PythonForLoop_stmt_text w stmt text :
  block_text w (rendered_elements stmt) = Some text ->
  emit_PythonForLoop_stmt PythonCodeGenerator_visit stmt w = Returns w text.
Proof.
  destruct stmt; unfold rendered_elements; simpl body_attr; cbv iota;
    try apply emit_lines_block_text;
    intros H; apply emit_lines_block_text in H; simpl in H;
    unfold emit_PythonForLoop_stmt;
    match type of H with
    | bind ?m _ _ = _ =>
        unfold bind at 1 in H; destruct (m w) as [w1 line| |];
        try discriminate; unfold ret, bind in H; injection H as -> <-;
        rewrite append_nil_r; reflexivity
    end.
Qed.

Lemma emit_PythonForLoop_body_text w body text :
  block_text w (flat_map rendered_elements body) = Some text ->
  emit_PythonForLoop_body PythonCodeGenerator_visit body w = Returns w text.
Proof.
  revert text. induction body as [|stmt rest IH]; simpl; intros text H.
  - injection H as <-. reflexivity.
  - apply block_text_app in H as (t1 & t2 & H1 & H2 & ->).
    apply emit_PythonForLoop_stmt_text in H1. apply IH in H2.
    unfold bind. rewrite H1, H2. reflexivity.
Qed.

(** ** On a tree of the data model the generator returns text *)

Lemma strings_of_map_SStr l : strings_of (map SStr l) = Some l.
Proof. induction l as [|x l IH]; simpl; [|rewrite IH]; reflexivity. Qed.

Lemma join_map_SStr sep l w :
  join sep (map SStr l) w = Returns w (join_strings sep l).
Proof. unfold join. rewrite strings_of_map_SStr. reflexivity. Qed.

Section HandlersReturn.

Variable visit : value -> M scalar.

Lemma visit_each_returns items :
  Forall (returns_text visit) items ->
  forall w, exists l, visit_each visit items w = Returns w (map SStr l).
Proof.
  induction 1 as [|x rest Hx _ IH]; intros w.
  - exists []. reflexivity.
  - destruct (Hx w) as (s & E). destruct (IH w) as (l & El).
    exists (s :: l). simpl. unfold bind. rewrite E, El. reflexivity.
Qed.

Lemma visit_each_but_Identifier_returns items :
  Forall (returns_text visit) items ->
  forall w, exists l,
      visit_each_but_Identifier visit items w = Returns w (map SStr l).
Proof.
  induction 1 as [|x rest Hx _ IH]; intros w.
  - exists []. reflexivity.
  - simpl. destruct (is_Identifier x); [apply IH|].
    destruct (Hx w) as (s & E). destruct (IH w) as (l & El).
    exists (s :: l). unfold bind. rewrite E, El. reflexivity.
Qed.

Lemma emit_lines_returns stmts :
  Forall (returns_text visit) stmts ->
  forall w, exists text, emit_lines visit stmts w = Returns w text.
Proof.
  induction 1 as [|x rest Hx _ IH]; intros w.
  - eexists. reflexivity.
  - destruct (Hx w) as (s & E). destruct (IH w) as (t & Et).
    eexists. simpl. unfold emit_line, bind, _indent. rewrite E.
    unfold ret at 1. rewrite Et. reflexivity.
Qed.

Lemma emit_PythonForLoop_body_returns stmts :
  Forall (fun c => forall w, exists text,
                emit_PythonForLoop_stmt visit c w = Returns w text) stmts ->
  forall w, exists text,
      emit_PythonForLoop_body visit stmts w = Returns w text.
Proof.
  induction 1 as [|x rest Hx _ IH]; intros w.
  - eexists. reflexivity.
  - destruct (Hx w) as (s & E). destruct (IH w) as (t & Et).
    eexists. simpl. unfold bind. rewrite E, Et. reflexivity.
Qed.

Lemma emit_line_returns stmt :
  returns_text visit stmt ->
  forall w, exists text, emit_line visit stmt w = Returns w text.
Proof.
  intros H w. destruct (H w) as (s & E). eexists.
  unfold emit_line, bind, _indent. rewrite E. reflexivity.
Qed.

Lemma visit_or_returns placeholder x :
  returns_text visit x ->
  forall w, exists s, visit_or visit placeholder x w = Returns w s.
Proof.
  intros H w. unfold visit_or. destruct (truthy x); [|eexists; reflexivity].
  destruct (H w) as (s & E). eexists. unfold bind. rewrite E. reflexivity.
Qed.

End HandlersReturn.

Lemma Forall_conforms (P : value -> Prop) l :
  Forall (fun c => conforms c = true -> P c) l ->
  forallb conforms l = true ->
  Forall P l.
Proof.
  induction 1 as [|x rest Hx _ IH]; simpl; [constructor|].
  intros H. apply andb_true_iff in H as [H1 H2].
  constructor; [apply Hx, H1 | apply IH, H2].
Qed.

Ltac split_conforms :=
  repeat match goal with
         | H : _ && _ = true |- _ => apply andb_true_iff in H; destruct H
         | H : Forall (fun _ => _ -> _ /\ _) ?l,
           C : forallb conforms ?l = true |- _ =>
             apply Forall_conforms in H; [|exact C];
             apply Forall_and_inv in H; destruct H
         end.

(** No handler raises on a tree of the data model; every render of such a
    tree returns a [str]. *)
Lemma conforming_tree_renders node :
  conforms node = true ->
  returns_text PythonCodeGenerator_visit node /\
  (forall w, exists text,
      emit_PythonForLoop_stmt PythonCodeGenerator_visit node w
      = Returns w text).
Proof.
  induction node using value_tree_ind; intros C; simpl in C;
    try discriminate; split_conforms.
  - split; [|intros w; apply emit_lines_returns; assumption].
    intros w.
    destruct (visit_each_but_Identifier_returns
                PythonCodeGenerator_visit body ltac:(assumption) w) as (l & E).
    eexists. simpl. unfold visit_TranslationUnit, bind.
    rewrite E, join_map_SStr. reflexivity.
  - split; [|intros w; apply emit_lines_returns; assumption].
    intros w.
    destruct (visit_each_returns
                PythonCodeGenerator_visit params ltac:(assumption) w) as (l & E).
    simpl. unfold visit_FunctionDecl.
    rewrite (bind_of_Returns _ _ _ _ _ E).
    rewrite (bind_of_Returns _ _ _ _ _ (join_map_SStr _ _ _)).
    unfold bind at 1. unfold add_indent at 1. fold (shifted 1 w).
    assert (B : exists block,
               match body with
               | [] => ind <- _indent ;; ret (ind ++ "pass" ++ nl)
               | _ :: _ => emit_lines PythonCodeGenerator_visit body
               end (shifted 1 w) = Returns (shifted 1 w) block).
    { destruct body; [eexists; reflexivity|].
      apply emit_lines_returns; assumption. }
    destruct B as (block & B). rewrite (bind_of_Returns _ _ _ _ _ B).
    unfold bind, add_indent. fold (shifted (-1) (shifted 1 w)).
    rewrite shifted_shifted, shifted_0.
    destruct (name =? "main")%string; eexists; reflexivity.
  - assert (R : returns_text PythonCodeGenerator_visit
                             (VarDecl name var_type node)).
    { intros w. simpl. unfold visit_VarDecl.
      destruct (truthy node) eqn:T; [|eexists; reflexivity].
      assert (Cn : conforms node = true)
        by (destruct node as [[]| | | | | | | | | | ];
            try discriminate; assumption).
      destruct (proj1 (IHnode Cn) w) as (s & E).
      eexists. unfold bind. rewrite E. reflexivity. }
    split; [exact R | apply emit_line_returns, R].
  - assert (R : returns_text PythonCodeGenerator_visit (CallExpr node args)).
    { intros w. destruct (proj1 (IHnode ltac:(assumption)) w) as (s & E).
      destruct (visit_each_returns
                  PythonCodeGenerator_visit args ltac:(assumption) w)
        as (l & El).
      eexists. simpl. unfold visit_CallExpr, bind.
      rewrite E, El, join_map_SStr. reflexivity. }
    split; [exact R | apply emit_line_returns, R].
  - assert (R : returns_text PythonCodeGenerator_visit
                             (BinaryOp op node1 node2)).
    { intros w. destruct (proj1 (IHnode1 ltac:(assumption)) w) as (s1 & E1).
      destruct (proj1 (IHnode2 ltac:(assumption)) w) as (s2 & E2).
      eexists. simpl. unfold visit_BinaryOp, bind. rewrite E1, E2.
      reflexivity. }
    split; [exact R | apply emit_line_returns, R].
  - assert (R : returns_text PythonCodeGenerator_visit (UnaryOp op node)).
    { intros w. destruct (proj1 (IHnode C) w) as (s & E).
      simpl. unfold visit_UnaryOp, bind. rewrite E.
      destruct (op =? "++")%string; [eexists; reflexivity|].
      destruct (op =? "--")%string; eexists; reflexivity. }
    split; [exact R | apply emit_line_returns, R].
  - split; [|intros w; apply emit_lines_returns; assumption].
    intros w.
    destruct (visit_or_returns PythonCodeGenerator_visit "# init" node1
                (proj1 (IHnode1 ltac:(assumption))) w) as (s1 & E1).
    destruct (visit_or_returns PythonCodeGenerator_visit "# cond" node2
                (proj1 (IHnode2 ltac:(assumption))) w) as (s2 & E2).
    destruct (visit_or_returns PythonCodeGenerator_visit "# inc" node3
                (proj1 (IHnode3 ltac:(assumption))) w) as (s3 & E3).
    destruct (emit_lines_returns PythonCodeGenerator_visit body
                ltac:(assumption) (shifted 1 w)) as (block & B).
    simpl. unfold visit_ForLoop.
    rewrite (bind_of_Returns _ _ _ _ _ E1), (bind_of_Returns _ _ _ _ _ E2),
      (bind_of_Returns _ _ _ _ _ E3).
    unfold bind at 1. unfold add_indent at 1. fold (shifted 1 w).
    rewrite (bind_of_Returns _ _ _ _ _ B).
    unfold bind, _indent, add_indent, ret.
    fold (shifted (-1) (shifted 1 w)). rewrite shifted_shifted, shifted_0.
    eexists. reflexivity.
  - split; [intros w; eexists; reflexivity|].
    apply emit_line_returns. intros w. eexists. reflexivity.
  - assert (R : returns_text PythonCodeGenerator_visit (Literal lit))
      by (intros w; destruct lit; eexists; reflexivity).
    split; [exact R | apply emit_line_returns, R].
  - split; [|intros w; apply emit_lines_returns; assumption].
    intros w.
    destruct (proj1 (IHnode1 ltac:(assumption)) w) as (s1 & E1).
    destruct (proj1 (IHnode2 ltac:(assumption)) w) as (s2 & E2).
    simpl. unfold visit_PythonForLoop.
    rewrite (bind_of_Returns _ _ _ _ _ E1), (bind_of_Returns _ _ _ _ _ E2).
    unfold bind at 1. unfold add_indent at 1. fold (shifted 1 w).
    assert (B : exists block,
               match body with
               | [] => ind <- _indent ;; ret (ind ++ "pass" ++ nl)
               | _ :: _ =>
                   emit_PythonForLoop_body PythonCodeGenerator_visit body
               end (shifted 1 w) = Returns (shifted 1 w) block).
    { destruct body; [eexists; reflexivity|].
      apply emit_PythonForLoop_body_returns; assumption. }
    destruct B as (block & B). rewrite (bind_of_Returns _ _ _ _ _ B).
    unfold bind, add_indent. fold (shifted (-1) (shifted 1 w)).
    rewrite shifted_shifted, shifted_0. eexists. reflexivity.
Qed.

(** ** Properties of the pipeline *)

(** *** C1 *)

(** C1.  A rule is to hand back, unchanged, every node outside its pattern,
    and [StdCoutToPrintRule] in particular every [<<] chain whose root is
    not [std::cout].  On the nested chain [(a << b) << c] the rule does
    something else: the outer test accepts any [<<] node whose left operand
    is again a [<<] node, the root is never looked at, and the chain is
    rewritten to the call [print(b, c)], losing [a]. *)
Theorem StdCoutToPrintRule_rewrites_chain_not_from_cout w :
  StdCoutToPrintRule_visit shift_chain_not_from_cout w =
  Returns w (CallExpr (Identifier "print") [Identifier "b"; Identifier "c"]).
Proof. reflexivity. Qed.

(** A one-step chain with another root is left alone, ... *)
Lemma StdCoutToPrintRule_keeps_single_shift a rhs w :
  is_identifier_named "std::cout" a = false ->
  is_shift_op a = false ->
  StdCoutToPrintRule_visit (BinaryOp "<<" a rhs) w =
  Returns w (BinaryOp "<<" a rhs).
Proof.
  intros H1 H2. unfold StdCoutToPrintRule_visit. rewrite H1, H2. reflexivity.
Qed.

(** ... and so is everything outside the pattern of the counted-loop rule. *)
Lemma ForLoopToRangeRule_keeps_unmatched node w :
  counted_loop node = None ->
  ForLoopToRangeRule_visit node w = Returns w node.
Proof.
  intros H. rewrite ForLoopToRangeRule_visit_spec, H. reflexivity.
Qed.

(** *** C3 *)

(** On a loop of the counted shape the rule attaches [visit_PythonForLoop]
    to the generator class. *)
Lemma ForLoopToRangeRule_patches_generator_class :
  ~ rule_leaves_world_unchanged ForLoopToRangeRule
      (counted_loop_i_N [Identifier "x"]).
Proof.
  intros H. specialize (H (mkWorld false 0)). discriminate H.
Qed.

(** C3, amended.  A rule application always returns; it never touches the
    indentation level of a generator; and the only thing it can change is
    the generator class, which gains [visit_PythonForLoop] exactly when
    [ForLoopToRangeRule] meets a loop of the counted shape and the class
    does not have the method yet. *)
Theorem Rule_visit_frame r node w :
  exists node',
    Rule_visit r node w =
    Returns (mkWorld (has_visit_PythonForLoop w || reaches_monkey_patch r node)
                     (_indent_level w))
            node'.
Proof.
  assert (E : mkWorld (has_visit_PythonForLoop w || false) (_indent_level w) = w)
    by (destruct w; simpl; rewrite orb_false_r; reflexivity).
  destruct r; unfold reaches_monkey_patch.
  - exists node. rewrite E. reflexivity.
  - simpl Rule_visit. rewrite ForLoopToRangeRule_visit_spec.
    destruct (counted_loop node) as [[[i bound] body]|].
    + eexists. rewrite orb_true_r. reflexivity.
    + exists node. rewrite E. reflexivity.
  - destruct (StdCoutToPrintRule_visit_returns node w) as (n' & H & _).
    exists n'. rewrite E. exact H.
Qed.

(** *** C4 *)

(** The base visitor, and with it the generator, hands a scalar back. *)
Lemma NodeVisitor_visit_scalar s w :
  NodeVisitor_visit (Scalar s) w = Returns w (Scalar s) /\
  PythonCodeGenerator_visit (Scalar s) w = Returns w s.
Proof. split; reflexivity. Qed.

Lemma apply_rules_scalar rules s w :
  apply_rules rules (Scalar s) w = Returns w (Scalar s).
Proof.
  induction rules as [|r rest IH]; [reflexivity|].
  simpl. destruct r; exact IH.
Qed.

(** C4.  Every visitor is to return a non-node value unchanged.
    [RuleApplier.visit] overrides [NodeVisitor.visit] without its
    [isinstance] guard: whatever the rule list, a scalar passes through the
    rules and reaches [generic_visit], which reads [__dict__] and raises
    [AttributeError]. *)
Theorem RuleApplier_visit_scalar_raises rules s w :
  RuleApplier_visit rules (Scalar s) w = Raises w AttributeError.
Proof.
  unfold RuleApplier_visit. simpl.
  rewrite (bind_of_Returns _ _ _ _ _ (apply_rules_scalar rules s w)).
  reflexivity.
Qed.

(** *** C5 *)

(** A body statement that is itself a loop does not get a line of its own:
    only the statements inside it are printed. *)
Lemma nested_loop_statement_not_rendered :
  ~ counted_loop_renders_each_statement [while_loop_over_x].
Proof.
  intros H.
  destruct (H (mkWorld false 0) _ eq_refl eq_refl) as [_ H2].
  vm_compute in H2. discriminate H2.
Qed.

(** C5, amended.  The counted loop [for (int i = 0; i < N; ++i) body] is
    rewritten to the bounded-iteration node with variable [i], bound [N] and
    the same body.  At indentation level zero the generator renders that
    node as the line [for i in range(N):] followed, one level deeper and one
    per line, by the elements that stand for each body statement: the
    statement itself when it has no [body] attribute, the elements of its
    own [body] when it has one.  An empty body gives the single line
    [pass]. *)
Theorem counted_loop_positive_case body w :
  ForLoopToRangeRule_visit (counted_loop_i_N body) w =
    Returns (patched w) (bounded_iteration_i_N body) /\
  forall text,
    _indent_level w = 0 ->
    block_text (shifted 1 (patched w)) (flat_map rendered_elements body)
      = Some text ->
    generate (bounded_iteration_i_N body) (patched w) =
      Returns (patched w)
              (SStr ("for i in range(N):" ++ nl ++
                     match body with
                     | [] => "    pass" ++ nl
                     | _ :: _ => text
                     end)).
Proof.
  split; [rewrite ForLoopToRangeRule_visit_spec; reflexivity|].
  intros text L B.
  unfold generate, bounded_iteration_i_N.
  change (visit_PythonForLoop PythonCodeGenerator_visit (Identifier "i")
            (Identifier "N") body (patched w) =
          Returns (patched w)
            (SStr ("for i in range(N):" ++ nl ++
                   match body with
                   | [] => "    pass" ++ nl
                   | _ :: _ => text
                   end))).
  unfold visit_PythonForLoop.
  assert (E : shifted (-1) (shifted 1 (patched w)) = patched w)
    by (rewrite shifted_shifted; apply shifted_0).
  destruct body as [|stmt rest].
  - unfold bind, add_indent, _indent, ret; simpl. rewrite L. simpl.
    unfold patched. rewrite L. reflexivity.
  - apply emit_PythonForLoop_body_text in B.
    unfold bind at 1 2 3. simpl PythonCodeGenerator_visit.
    unfold visit_Identifier, ret at 1 2.
    unfold add_indent at 1. fold (shifted 1 (patched w)).
    unfold bind at 1. rewrite B.
    unfold bind, add_indent. fold (shifted (-1) (shifted 1 (patched w))).
    rewrite E. reflexivity.
Qed.

Lemma counted_loop_positive_case_witness :
  let body := [while_loop_over_x; Identifier "y"] in
  let w := mkWorld false 0 in
  let text := "    x" ++ nl ++ "    y" ++ nl in
  _indent_level w = 0 /\
  block_text (shifted 1 (patched w)) (flat_map rendered_elements body)
    = Some text /\
  ForLoopToRangeRule_visit (counted_loop_i_N body) w =
    Returns (patched w) (bounded_iteration_i_N body) /\
  generate (bounded_iteration_i_N body) (patched w) =
    Returns (patched w) (SStr ("for i in range(N):" ++ nl ++ text)).
Proof.
  intros body w text.
  split; [reflexivity|]. split; [reflexivity|].
  destruct (counted_loop_positive_case body w) as [H1 H2].
  split; [exact H1 | exact (H2 text eq_refl eq_refl)].
Defined.

(** *** C6 *)

(** C6.  The chain [std::cout << "a" << x << std::endl] is rewritten to the
    call of [print] on the literal and the identifier, in that order and
    without the end-of-line operand, and the call is rendered as
    [print("a", x)]. *)
Theorem cout_chain_becomes_print_call w :
  StdCoutToPrintRule_visit cout_a_x_endl w =
    Returns w (CallExpr (Identifier "print")
                        [Literal (SStr "a"); Identifier "x"]) /\
  generate (CallExpr (Identifier "print") [Literal (SStr "a"); Identifier "x"]) w =
    Returns w (SStr ("print(" ++ dquote ++ "a" ++ dquote ++ ", x)")).
Proof. split; reflexivity. Qed.

(** *** C7 *)

(** C7.  A loop whose variable starts at one is handed back by the
    counted-loop rule as it is.  The generator renders it as: the comment
    line, the rendered declaration, the line [while <cond>:], then one level
    deeper the rendered body statements followed by the rendered increment
    as the last line. *)
Theorem counted_loop_negative_case name var_type cond inc body w :
  let init := VarDecl name var_type (Literal (SInt 1)) in
  let loop := ForLoop init cond inc body in
  let init_s :=
    name ++ match _map_type var_type with
            | Some py_type => ": " ++ py_type
            | None => EmptyString
            end ++ " = 1" in
  ForLoopToRangeRule_visit loop w = Returns w loop /\
  rendering w init = Some init_s /\
  forall cond_s inc_s block,
    is_Node cond = true ->
    is_Node inc = true ->
    rendering w cond = Some cond_s ->
    rendering w inc = Some inc_s ->
    block_text (shifted 1 w) body = Some block ->
    generate loop w =
      Returns w
        (SStr ("# Original C++ for loop was not transformed" ++ nl
               ++ init_s ++ nl
               ++ "while " ++ cond_s ++ ":" ++ nl
               ++ block
               ++ indent_text (shifted 1 w) ++ inc_s ++ nl)).
Proof.
  intros init loop init_s.
  assert (Ri0 : rendering w init = Some init_s) by reflexivity.
  split; [reflexivity|]. split; [exact Ri0|].
  intros cond_s inc_s block Nc Ni Rc Ri B.
  unfold generate, loop.
  change (PythonCodeGenerator_visit (ForLoop init cond inc body) w)
    with (visit_ForLoop PythonCodeGenerator_visit init cond inc body w).
  unfold visit_ForLoop.
  assert (Tc : truthy cond = true)
    by (destruct cond; try discriminate; reflexivity).
  assert (Ti : truthy inc = true)
    by (destruct inc; try discriminate; reflexivity).
  rewrite (bind_of_Returns _ _ _ _ _
             (visit_or_rendering "# init" w init init_s eq_refl Ri0)).
  rewrite (bind_of_Returns _ _ _ _ _
             (visit_or_rendering "# cond" w cond cond_s Tc Rc)).
  rewrite (bind_of_Returns _ _ _ _ _
             (visit_or_rendering "# inc" w inc inc_s Ti Ri)).
  apply emit_lines_block_text in B.
  unfold bind at 1. unfold add_indent at 1. fold (shifted 1 w).
  rewrite (bind_of_Returns _ _ _ _ _ B).
  unfold bind, _indent, add_indent, ret.
  fold (shifted (-1) (shifted 1 w)). rewrite shifted_shifted, shifted_0.
  repeat rewrite append_assoc. reflexivity.
Qed.

Lemma counted_loop_negative_case_witness :
  let cond := BinaryOp "<" (Identifier "i") (Identifier "N") in
  let inc := UnaryOp "++" (Identifier "i") in
  let body := [CallExpr (Identifier "f") [Identifier "i"]] in
  let loop := ForLoop (VarDecl "i" "int" (Literal (SInt 1))) cond inc body in
  let w := mkWorld false 0 in
  (is_Node cond = true /\ is_Node inc = true) /\
  (rendering w cond = Some "(i < N)" /\ rendering w inc = Some "i += 1") /\
  block_text (shifted 1 w) body = Some ("    f(i)" ++ nl) /\
  ForLoopToRangeRule_visit loop w = Returns w loop /\
  generate loop w =
    Returns w
      (SStr ("# Original C++ for loop was not transformed" ++ nl
             ++ "i: int = 1" ++ nl
             ++ "while (i < N):" ++ nl
             ++ "    f(i)" ++ nl
             ++ "    i += 1" ++ nl)).
Proof.
  intros cond inc body loop w.
  split; [split; reflexivity|]. split; [split; reflexivity|].
  split; [reflexivity|].
  destruct (counted_loop_negative_case "i" "int" cond inc body w)
    as (H1 & _ & H3).
  split; [exact H1|].
  exact (H3 "(i < N)" "i += 1" ("    f(i)" ++ nl)
            eq_refl eq_refl eq_refl eq_refl eq_refl).
Defined.

(** *** C8 *)

Lemma visit_items_identity (visit : value -> M value) items w :
  Forall (fun c => forall w', visit c w' = Returns w' c) items ->
  visit_items visit items w = Returns w items.
Proof.
  induction 1 as [|x l Hx Hl IH]; simpl; [reflexivity|].
  unfold bind. rewrite Hx, IH. reflexivity.
Qed.

Lemma visit_field_identity (visit : value -> M value) c w :
  (forall w', visit c w' = Returns w' c) ->
  visit_field visit c w = Returns w c.
Proof.
  intros H. unfold visit_field. destruct (is_Node c); [apply H | reflexivity].
Qed.

(** C8.  The base visitor, which has no handler for any kind, returns every
    tree as it received it: same kinds, same scalar fields, same sequences
    in the same order. *)
Theorem NodeVisitor_visit_round_trip node w :
  NodeVisitor_visit node w = Returns w node.
Proof.
  revert w. induction node using value_tree_ind; intros w;
    try reflexivity; simpl; unfold bind;
    repeat first
      [ rewrite visit_items_identity by assumption
      | rewrite visit_field_identity by assumption ];
    reflexivity.
Qed.

(** *** C9 *)

(** [join] raises on the integer argument while the body of [f] is being
    rendered; nothing undoes the increment made on entering the body. *)
Lemma indent_left_raised_by_failing_statement :
  ~ indent_restored_on_every_exit function_calling_g_on_5.
Proof.
  intros H. specialize (H (mkWorld false 0) (mkWorld false 1) eq_refl).
  discriminate H.
Qed.

(** C9, amended.  Every render that returns restores the indentation level
    it was entered with, so a statement that was rendered never mis-indents
    the statement after it. *)
Theorem indent_restored_on_return node w w' s :
  PythonCodeGenerator_visit node w = Returns w' s ->
  _indent_level w' = _indent_level w.
Proof.
  intros H. apply visit_Returns_same in H. rewrite H. reflexivity.
Qed.

Lemma indent_restored_on_return_witness :
  let node := FunctionDecl "f" [] [while_loop_over_x] "void" in
  let w := mkWorld false 2 in
  let text := "def f():" ++ nl
              ++ "            # Original C++ for loop was not transformed" ++ nl
              ++ "j: int = 1" ++ nl
              ++ "while (j < M):" ++ nl
              ++ "                x" ++ nl
              ++ "                j += 1" ++ nl ++ nl in
  PythonCodeGenerator_visit node w = Returns w (SStr text) /\
  _indent_level w = _indent_level w.
Proof.
  intros node w text.
  assert (H : PythonCodeGenerator_visit node w = Returns w (SStr text))
    by reflexivity.
  split; [exact H|].
  exact (indent_restored_on_return node w w (SStr text) H).
Defined.

(** *** C10 *)

(** C10.  In the bounded-iteration renderer a body element that is a node
    with a [body] attribute is replaced in the output by the elements of
    that attribute, one line each; nothing else of the element is printed.
    An element without the attribute is printed as itself. *)
Theorem PythonForLoop_renders_inner_bodies target iter body w t i text :
  body <> [] ->
  rendering w target = Some t ->
  rendering w iter = Some i ->
  block_text (shifted 1 w) (flat_map rendered_elements body) = Some text ->
  PythonCodeGenerator_visit (PythonForLoop target iter body) w =
    Returns w (SStr ("for " ++ t ++ " in range(" ++ i ++ "):" ++ nl ++ text)).
Proof.
  intros Hb Rt Ri B.
  apply rendering_Some in Rt as (st & Et & <-).
  apply rendering_Some in Ri as (si & Ei & <-).
  change (visit_PythonForLoop PythonCodeGenerator_visit target iter body w =
          Returns w (SStr ("for " ++ py_str st ++ " in range(" ++ py_str si
                           ++ "):" ++ nl ++ text))).
  unfold visit_PythonForLoop.
  rewrite (bind_of_Returns _ _ _ _ _ Et), (bind_of_Returns _ _ _ _ _ Ei).
  destruct body as [|stmt rest]; [congruence|].
  apply emit_PythonForLoop_body_text in B.
  unfold bind at 1. unfold add_indent at 1. fold (shifted 1 w).
  rewrite (bind_of_Returns _ _ _ _ _ B).
  unfold bind, add_indent, ret.
  fold (shifted (-1) (shifted 1 w)). rewrite shifted_shifted, shifted_0.
  repeat rewrite append_assoc. reflexivity.
Qed.

Lemma PythonForLoop_renders_inner_bodies_witness :
  let inner :=
    FunctionDecl "g" [VarDecl "a" "int" PyNone]
                 [Identifier "p"; UnaryOp "--" (Identifier "q")] "int" in
  let body := [inner; Identifier "r"] in
  let w := mkWorld true 1 in
  let text := "        p" ++ nl ++ "        q -= 1" ++ nl ++ "        r" ++ nl in
  body <> [] /\
  (rendering w (Identifier "k") = Some "k" /\
   rendering w (Literal (SInt 3)) = Some "3") /\
  block_text (shifted 1 w) (flat_map rendered_elements body) = Some text /\
  PythonCodeGenerator_visit
    (PythonForLoop (Identifier "k") (Literal (SInt 3)) body) w =
    Returns w (SStr ("for k in range(3):" ++ nl ++ text)).
Proof.
  intros inner body w text.
  assert (Hb : body <> []) by discriminate.
  split; [exact Hb|]. split; [split; reflexivity|]. split; [reflexivity|].
  exact (PythonForLoop_renders_inner_bodies
           (Identifier "k") (Literal (SInt 3)) body w "k" "3" text
           Hb eq_refl eq_refl eq_refl).
Defined.

(** ** Further properties: the rules *)

Lemma StdCoutToPrintRule_visit_spec node w :
  StdCoutToPrintRule_visit node w =
  Returns w (if cout_pattern node
             then CallExpr (Identifier "print") (_flatten_cout_chain node)
             else node).
Proof.
  destruct node as [ | | | | |op l r| | | | | ]; try reflexivity.
  unfold StdCoutToPrintRule_visit, cout_pattern.
  destruct (op =? "<<")%string; [|reflexivity].
  destruct (is_identifier_named "std::cout" l); destruct (is_shift_op l);
    reflexivity.
Qed.

Lemma counted_loop_ForLoop node i bound body :
  counted_loop node = Some (i, bound, body) ->
  exists init cond inc, node = ForLoop init cond inc body.
Proof.
  destruct node as [ | | | | | | |init cond inc body'| | | ]; try discriminate.
  destruct init as [ | | |i' ty [ | | | | | | | | |v| ]| | | | | | | ];
    try discriminate.
  destruct cond as [ | | | | |op [ | | | | | | | |n| | ] bound'| | | | | ];
    try discriminate.
  destruct inc as [ | | | | | |op' [ | | | | | | | |n'| | ]| | | | ];
    try discriminate.
  unfold counted_loop.
  destruct (eq_zero v && (op =? "<")%string && (n =? i')%string
            && (op' =? "++")%string && (n' =? i')%string); [|discriminate].
  intros [= <- <- <-]. eauto.
Qed.

Lemma counted_loop_not_cout_pattern node :
  counted_loop node <> None -> cout_pattern node = false.
Proof.
  destruct (counted_loop node) as [[[i b] body]|] eqn:E; [|congruence].
  intros _. apply counted_loop_ForLoop in E as (? & ? & ? & ->). reflexivity.
Qed.

Lemma patched_idem w : patched (patched w) = patched w.
Proof. reflexivity. Qed.

Lemma rewrite_node_PythonForLoop rules target iter body :
  rewrite_node rules (PythonForLoop target iter body)
  = PythonForLoop target iter body
  /\ patches rules (PythonForLoop target iter body) = false.
Proof.
  unfold rewrite_node, patches. simpl.
  rewrite !andb_false_r. split; reflexivity.
Qed.

Lemma rewrite_node_CallExpr rules callee args :
  rewrite_node rules (CallExpr callee args) = CallExpr callee args
  /\ patches rules (CallExpr callee args) = false.
Proof.
  unfold rewrite_node, patches. simpl.
  rewrite !andb_false_r. split; reflexivity.
Qed.

(** The outcome of the rule loop depends only on which rules are in the
    list. *)
Lemma apply_rules_spec rules node w :
  apply_rules rules node w =
  Returns (if patches rules node then patched w else w)
          (rewrite_node rules node).
Proof.
  revert node w. induction rules as [|r rest IH]; intros node w.
  - unfold rewrite_node, patches. simpl.
    destruct (counted_loop node) as [[[i b] body]|]; reflexivity.
  - simpl apply_rules. destruct r.
    + simpl Rule_visit. unfold bind, ret. rewrite IH. reflexivity.
    + simpl Rule_visit. unfold bind. rewrite ForLoopToRangeRule_visit_spec.
      unfold rewrite_node, patches. simpl has_rule.
      destruct (counted_loop node) as [[[i b] body]|] eqn:E.
      * rewrite IH.
        destruct (rewrite_node_PythonForLoop rest (Identifier i) b body)
          as [-> ->]. reflexivity.
      * rewrite IH. unfold rewrite_node, patches. rewrite E.
        rewrite andb_false_r. reflexivity.
    + simpl Rule_visit. unfold bind. rewrite StdCoutToPrintRule_visit_spec.
      unfold rewrite_node, patches. simpl has_rule.
      destruct (counted_loop node) as [[[i b] body]|] eqn:E.
      * rewrite counted_loop_not_cout_pattern by congruence.
        rewrite IH. unfold rewrite_node, patches. rewrite E. reflexivity.
      * destruct (cout_pattern node) eqn:P.
        -- rewrite IH.
           destruct (rewrite_node_CallExpr rest (Identifier "print")
                       (_flatten_cout_chain node)) as [-> ->].
           rewrite andb_false_r. reflexivity.
        -- rewrite IH. unfold rewrite_node, patches. rewrite E, P.
           rewrite !andb_false_r. reflexivity.
Qed.

(** X2.  [ForLoopToRangeRule] rewrites exactly the loops that declare a
    variable with a literal equal to zero ([0], or [False], which Python
    counts as equal to it), compare that variable with [<] on the left and
    increment it with [++].  The declared type and the bound expression
    play no part in the test.  Every other node comes back as it was, with
    the state untouched. *)
Theorem ForLoopToRangeRule_visit_exact node w :
  (forall i ty v bound body,
      eq_zero v = true ->
      node = ForLoop (VarDecl i ty (Literal v))
                     (BinaryOp "<" (Identifier i) bound)
                     (UnaryOp "++" (Identifier i)) body ->
      ForLoopToRangeRule_visit node w =
      Returns (patched w) (PythonForLoop (Identifier i) bound body)) /\
  ((forall i ty v bound body,
       eq_zero v = true ->
       node <> ForLoop (VarDecl i ty (Literal v))
                       (BinaryOp "<" (Identifier i) bound)
                       (UnaryOp "++" (Identifier i)) body) ->
   ForLoopToRangeRule_visit node w = Returns w node).
Proof.
  split.
  - intros i ty v bound body Z ->.
    rewrite ForLoopToRangeRule_visit_spec. unfold counted_loop.
    rewrite Z, !String.eqb_refl. reflexivity.
  - intros H. rewrite ForLoopToRangeRule_visit_spec.
    destruct (counted_loop node) as [[[i bound] body]|] eqn:E; [|reflexivity].
    exfalso. revert E.
    destruct node as [ | | | | | | |init cond inc body'| | | ];
      try discriminate.
    destruct init as [ | | |i' ty [ | | | | | | | | |v| ]| | | | | | | ];
      try discriminate.
    destruct cond as [ | | | | |op [ | | | | | | | |n| | ] bound'| | | | | ];
      try discriminate.
    destruct inc as [ | | | | | |op' [ | | | | | | | |n'| | ]| | | | ];
      try discriminate.
    unfold counted_loop.
    destruct (eq_zero v) eqn:Z; [|discriminate].
    destruct (String.eqb_spec op "<") as [->|]; [|discriminate].
    destruct (String.eqb_spec n i') as [->|]; [|discriminate].
    destruct (String.eqb_spec op' "++") as [->|]; [|discriminate].
    destruct (String.eqb_spec n' i') as [->|]; [|discriminate].
    intros _. exact (H i' ty v bound' body' Z eq_refl).
Qed.

Lemma ForLoopToRangeRule_visit_exact_witness :
  let node := ForLoop (VarDecl "k" "float" (Literal (SBool false)))
                      (BinaryOp "<" (Identifier "k")
                                (BinaryOp "+" (Identifier "k") (Identifier "n")))
                      (UnaryOp "++" (Identifier "k")) [] in
  let w := mkWorld false 3 in
  eq_zero (SBool false) = true /\
  ForLoopToRangeRule_visit node w =
  Returns (patched w)
          (PythonForLoop (Identifier "k")
                         (BinaryOp "+" (Identifier "k") (Identifier "n")) []).
Proof.
  intros node w. split; [reflexivity|].
  exact (proj1 (ForLoopToRangeRule_visit_exact node w)
               "k" "float" (SBool false)
               (BinaryOp "+" (Identifier "k") (Identifier "n")) []
               eq_refl eq_refl).
Defined.

Lemma shift_chain_snoc root operands x :
  shift_chain root (operands ++ [x])
  = BinaryOp "<<" (shift_chain root operands) x.
Proof. unfold shift_chain. rewrite fold_left_app. reflexivity. Qed.

Lemma shift_chain_is_shift_op root operands :
  operands <> [] -> is_shift_op (shift_chain root operands) = true.
Proof.
  destruct operands as [|x l _] using rev_ind; [congruence|].
  intros _. rewrite shift_chain_snoc. reflexivity.
Qed.

Lemma flatten_shift_chain root operands :
  is_shift_op root = false ->
  operands <> [] ->
  _flatten_cout_chain (shift_chain root operands)
  = filter kept_operand operands.
Proof.
  intros R. induction operands as [|x l IH] using rev_ind; [congruence|].
  intros _. rewrite shift_chain_snoc, flatten_cout_chain_BinaryOp, filter_app.
  f_equal.
  - destruct l as [|y l'].
    + simpl. rewrite R. reflexivity.
    + rewrite shift_chain_is_shift_op by discriminate.
      apply IH. discriminate.
  - simpl. unfold kept_operand.
    destruct (is_identifier_named "std::endl" x); reflexivity.
Qed.

Lemma StdCoutToPrintRule_visit_shift_chain operands w :
  operands <> [] ->
  StdCoutToPrintRule_visit (shift_chain (Identifier "std::cout") operands) w =
  Returns w (CallExpr (Identifier "print") (filter kept_operand operands)).
Proof.
  intros H. rewrite StdCoutToPrintRule_visit_spec.
  rewrite flatten_shift_chain by (reflexivity || assumption).
  destruct operands as [|x l _] using rev_ind; [congruence|].
  rewrite shift_chain_snoc. unfold cout_pattern.
  destruct l as [|y l'].
  - reflexivity.
  - rewrite shift_chain_is_shift_op by discriminate.
    rewrite orb_true_r. reflexivity.
Qed.

(** X3.  Whatever the length of the chain [std::cout << x1 << ... << xn],
    [StdCoutToPrintRule] turns it into one call of [print] whose arguments
    are the operands in their order, without any operand that is the
    identifier [std::endl], wherever in the chain it stands. *)
Theorem StdCoutToPrintRule_flattens_chain operands w :
  operands <> [] ->
  StdCoutToPrintRule_visit (shift_chain (Identifier "std::cout") operands) w =
  Returns w (CallExpr (Identifier "print") (filter kept_operand operands)).
Proof. apply StdCoutToPrintRule_visit_shift_chain. Qed.

Lemma StdCoutToPrintRule_flattens_chain_witness :
  let operands := [Identifier "std::endl"; Literal (SInt 1);
                   Identifier "std::endl"; Identifier "x"] in
  let w := mkWorld false 0 in
  operands <> [] /\
  StdCoutToPrintRule_visit (shift_chain (Identifier "std::cout") operands) w =
  Returns w (CallExpr (Identifier "print") [Literal (SInt 1); Identifier "x"]).
Proof.
  intros operands w.
  assert (H : operands <> []) by discriminate.
  split; [exact H|].
  exact (StdCoutToPrintRule_flattens_chain operands w H).
Defined.

(** ** Further properties: the rule engine *)

Section VisitExt.

Variables visit1 visit2 : value -> M value.
Hypothesis same : forall c w, visit1 c w = visit2 c w.

Lemma visit_items_ext items w :
  visit_items visit1 items w = visit_items visit2 items w.
Proof.
  revert w. induction items as [|x rest IH]; intros w; [reflexivity|].
  simpl. unfold bind. rewrite same.
  destruct (visit2 x w) as [w1 x'| |]; try reflexivity.
  rewrite IH. reflexivity.
Qed.

Lemma visit_field_ext c w : visit_field visit1 c w = visit_field visit2 c w.
Proof. unfold visit_field. destruct (is_Node c); [apply same | reflexivity]. Qed.

Lemma bind_ext {A B} (m1 m2 : M A) (k1 k2 : A -> M B) w :
  m1 w = m2 w -> (forall a w', k1 a w' = k2 a w') ->
  bind m1 k1 w = bind m2 k2 w.
Proof.
  intros E K. unfold bind. rewrite E.
  destruct (m2 w); [apply K | reflexivity | reflexivity].
Qed.

Lemma generic_visit_ext node w :
  generic_visit visit1 node w = generic_visit visit2 node w.
Proof.
  destruct node; simpl; try reflexivity;
    repeat first
      [ reflexivity
      | apply bind_ext;
        [ first [ apply visit_field_ext | apply visit_items_ext ] | intros ] ].
Qed.

End VisitExt.

(** The fixed-point equation of the engine. *)
Lemma RuleApplier_visit_eq rules node w :
  RuleApplier_visit rules node w =
  (node' <- apply_rules rules node ;;
   generic_visit (RuleApplier_visit rules) node') w.
Proof.
  unfold RuleApplier_visit at 1. simpl.
  destruct (apply_rules_returns rules node w) as (w1 & n1 & E & S1 & _).
  rewrite !(bind_of_Returns _ _ _ _ _ E).
  pose proof (size_pos n1).
  apply generic_visit_agree with (bound := (size n1 - 1)%nat); [|lia].
  intros c w' Hc. unfold RuleApplier_visit.
  apply (RuleApplier_visit_fuel_stable rules (size c)); lia.
Qed.

Lemma has_rule_rewrite_node rules1 rules2 node :
  has_rule ForLoopToRangeRule rules1 = has_rule ForLoopToRangeRule rules2 ->
  has_rule StdCoutToPrintRule rules1 = has_rule StdCoutToPrintRule rules2 ->
  rewrite_node rules1 node = rewrite_node rules2 node /\
  patches rules1 node = patches rules2 node.
Proof.
  intros H1 H2. unfold rewrite_node, patches. rewrite H1, H2.
  split; reflexivity.
Qed.

(** X1.  The engine looks at the rule list only to see which of the two
    rewriting rules are in it: two lists that agree on that, in whatever
    order and however often a rule is repeated, rewrite every tree to the
    same tree and leave the same state behind. *)
Theorem RuleApplier_visit_order_irrelevant rules1 rules2 node w :
  has_rule ForLoopToRangeRule rules1 = has_rule ForLoopToRangeRule rules2 ->
  has_rule StdCoutToPrintRule rules1 = has_rule StdCoutToPrintRule rules2 ->
  RuleApplier_visit rules1 node w = RuleApplier_visit rules2 node w.
Proof.
  intros H1 H2. unfold RuleApplier_visit.
  generalize (S (size node)) as fuel. intros fuel. revert node w.
  induction fuel as [|fuel IH]; intros node w; [reflexivity|].
  simpl. apply bind_ext.
  - rewrite !apply_rules_spec.
    destruct (has_rule_rewrite_node rules1 rules2 node H1 H2) as [-> ->].
    reflexivity.
  - intros n1 w1. apply generic_visit_ext. exact IH.
Qed.

Lemma RuleApplier_visit_order_irrelevant_witness :
  let rules1 := [ForLoopToRangeRule; StdCoutToPrintRule] in
  let rules2 := [StdCoutToPrintRule; Rule; ForLoopToRangeRule;
                 StdCoutToPrintRule] in
  let node := TranslationUnit [counted_loop_i_N [cout_a_x_endl]] in
  let w := mkWorld false 0 in
  (has_rule ForLoopToRangeRule rules1 = has_rule ForLoopToRangeRule rules2 /\
   has_rule StdCoutToPrintRule rules1 = has_rule StdCoutToPrintRule rules2) /\
  RuleApplier_visit rules1 node w = RuleApplier_visit rules2 node w.
Proof.
  intros rules1 rules2 node w.
  split; [split; reflexivity|].
  exact (RuleApplier_visit_order_irrelevant rules1 rules2 node w
           eq_refl eq_refl).
Defined.

(** ** Further properties: the generator *)

Ltac norm_append := repeat (progress (cbn [append]; rewrite ?append_assoc)).

Lemma visit_each_renders w items texts :
  Forall2 (renders_to w) items texts ->
  visit_each PythonCodeGenerator_visit items w = Returns w (map SStr texts).
Proof.
  induction 1 as [|x t items texts Hx _ IH]; [reflexivity|].
  simpl. unfold bind. rewrite Hx, IH. reflexivity.
Qed.

Lemma visit_each_but_Identifier_renders w items texts :
  Forall2 (renders_to w)
          (filter (fun child => negb (is_Identifier child)) items) texts ->
  visit_each_but_Identifier PythonCodeGenerator_visit items w
  = Returns w (map SStr texts).
Proof.
  revert texts. induction items as [|x items IH]; intros texts H.
  - inversion H. reflexivity.
  - simpl in *. destruct (is_Identifier x); simpl in H; [apply IH, H|].
    inversion H as [|? t ? texts' Hx Hrest]; subst.
    unfold bind. rewrite Hx, (IH _ Hrest). reflexivity.
Qed.

(** X4.  A translation unit is rendered as the renderings of its children
    joined by one empty line, the children that are bare [Identifier]
    nodes (the converter's placeholder for what it does not handle) left
    out. *)
Theorem TranslationUnit_text body w texts :
  Forall2 (renders_to w)
          (filter (fun child => negb (is_Identifier child)) body) texts ->
  generate (TranslationUnit body) w
  = Returns w (SStr (join_strings (nl ++ nl) texts)).
Proof.
  intros H. unfold generate. simpl. unfold visit_TranslationUnit.
  rewrite (bind_of_Returns _ _ _ _ _
             (visit_each_but_Identifier_renders w body texts H)).
  rewrite (bind_of_Returns _ _ _ _ _ (join_map_SStr _ _ _)).
  reflexivity.
Qed.

Lemma TranslationUnit_text_witness :
  let body := [Identifier "UNHANDLED<USING_DIRECTIVE>";
               VarDecl "g" "double" (Literal (SInt 2));
               Identifier "UNHANDLED<CLASS_DECL>";
               VarDecl "h" "T" PyNone] in
  let w := mkWorld false 0 in
  let texts := ["g: float = 2"; "h = None"] in
  Forall2 (renders_to w)
          (filter (fun child => negb (is_Identifier child)) body) texts /\
  generate (TranslationUnit body) w
  = Returns w (SStr ("g: float = 2" ++ nl ++ nl ++ "h = None")).
Proof.
  intros body w texts.
  assert (H : Forall2 (renders_to w)
                (filter (fun child => negb (is_Identifier child)) body) texts)
    by (repeat constructor).
  split; [exact H|].
  exact (TranslationUnit_text body w texts H).
Defined.

Lemma visit_FunctionDecl_runs name params body return_type w param_texts block :
  Forall2 (renders_to w) params param_texts ->
  match body with
  | [] => Some (indent_text (shifted 1 w) ++ "pass" ++ nl)
  | _ :: _ => block_text (shifted 1 w) body
  end = Some block ->
  generate (FunctionDecl name params body return_type) w
  = Returns w
      (SStr (("def " ++ name ++ "(" ++ join_strings ", " param_texts ++ ")"
              ++ return_hint return_type ++ ":" ++ nl)
             ++ block ++ main_trailer name)).
Proof.
  intros Hp Hb. unfold generate. simpl. unfold visit_FunctionDecl.
  rewrite (bind_of_Returns _ _ _ _ _ (visit_each_renders w params _ Hp)).
  rewrite (bind_of_Returns _ _ _ _ _ (join_map_SStr _ _ _)).
  unfold bind at 1. unfold add_indent at 1. fold (shifted 1 w).
  assert (B : match body with
              | [] => ind <- _indent ;; ret (ind ++ "pass" ++ nl)
              | _ :: _ => emit_lines PythonCodeGenerator_visit body
              end (shifted 1 w) = Returns (shifted 1 w) block).
  { destruct body; [injection Hb as <-; reflexivity|].
    apply emit_lines_block_text, Hb. }
  rewrite (bind_of_Returns _ _ _ _ _ B).
  unfold bind, add_indent. fold (shifted (-1) (shifted 1 w)).
  rewrite shifted_shifted, shifted_0.
  unfold return_hint, main_trailer.
  replace (match _map_type return_type with
           | Some py_type =>
               if negb (py_type =? "None")%string
               then " -> " ++ py_type else EmptyString
           | None => EmptyString
           end)
    with (match _map_type return_type with
          | Some py_type =>
              if (py_type =? "None")%string
              then EmptyString else " -> " ++ py_type
          | None => EmptyString
          end)
    by (destruct (_map_type return_type) as [t|]; [|reflexivity];
        destruct (t =? "None")%string; reflexivity).
  destruct (name =? "main")%string; unfold ret;
    rewrite ?append_nil_r; norm_append; reflexivity.
Qed.

(** X5.  A function definition is rendered as the header [def name(...)]
    with the rendered parameters joined by a comma and a return annotation
    only for a mapped type other than [void], then the body one level
    deeper, one statement per line, or the line [pass] for an empty body;
    the function called [main] is followed by the guarded call of it. *)
Theorem FunctionDecl_text name params body return_type w param_texts block :
  Forall2 (renders_to w) params param_texts ->
  match body with
  | [] => Some (indent_text (shifted 1 w) ++ "pass" ++ nl)
  | _ :: _ => block_text (shifted 1 w) body
  end = Some block ->
  generate (FunctionDecl name params body return_type) w
  = Returns w
      (SStr (("def " ++ name ++ "(" ++ join_strings ", " param_texts ++ ")"
              ++ return_hint return_type ++ ":" ++ nl)
             ++ block ++ main_trailer name)).
Proof. apply visit_FunctionDecl_runs. Qed.

Lemma FunctionDecl_text_witness :
  let params := [VarDecl "n" "const int" PyNone] in
  let body := [CallExpr (Identifier "f") [Identifier "n"]] in
  let w := mkWorld false 0 in
  Forall2 (renders_to w) params ["n: int = None"] /\
  block_text (shifted 1 w) body = Some ("    f(n)" ++ nl) /\
  generate (FunctionDecl "main" params body "void") w
  = Returns w
      (SStr ("def main(n: int = None):" ++ nl
             ++ "    f(n)" ++ nl
             ++ nl ++ nl ++ "if __name__ == " ++ dquote ++ "__main__" ++ dquote
             ++ ":" ++ nl ++ "    main()")).
Proof.
  intros params body w.
  assert (Hp : Forall2 (renders_to w) params ["n: int = None"])
    by (repeat constructor).
  split; [exact Hp|]. split; [reflexivity|].
  exact (FunctionDecl_text "main" params body "void" w
           ["n: int = None"] ("    f(n)" ++ nl) Hp eq_refl).
Defined.

Lemma parameter_renders w p :
  renders_to w (parameter p) (fst p ++ type_hint (snd p) ++ " = None").
Proof. destruct p as [n t]. reflexivity. Qed.

(** X6.  Every parameter the converter produces is rendered with the
    default value [None]: whatever the names and declared types, the
    header of a function lists its parameters as [name = None], with a
    type annotation where the declared type is mapped. *)
Theorem FunctionDecl_parameters_default_to_None name signature return_type w :
  generate (FunctionDecl name (map parameter signature) [] return_type) w
  = Returns w
      (SStr (("def " ++ name ++ "("
              ++ join_strings ", "
                   (map (fun p => fst p ++ type_hint (snd p) ++ " = None")
                        signature)
              ++ ")" ++ return_hint return_type ++ ":" ++ nl)
             ++ (indent_text (shifted 1 w) ++ "pass" ++ nl)
             ++ main_trailer name)).
Proof.
  apply visit_FunctionDecl_runs; [|reflexivity].
  induction signature as [|p rest IH]; simpl; constructor;
    [apply parameter_renders | exact IH].
Qed.

Lemma visit_or_text_or placeholder w x s :
  text_or placeholder w x = Some s ->
  visit_or PythonCodeGenerator_visit placeholder x w = Returns w s.
Proof.
  unfold text_or, visit_or. destruct (truthy x) eqn:T.
  - intros R. apply rendering_Some in R as (sc & E & <-).
    rewrite (bind_of_Returns _ _ _ _ _ E). reflexivity.
  - intros [= <-]. reflexivity.
Qed.

(** X7.  The fallback renderer of [ForLoop] copes with missing header
    parts: each of [init], [cond] and [inc] that is [None] (or any other
    false value) is replaced by the comment [# init], [# cond] or [# inc];
    a part that is present is rendered.  The increment is rendered before
    the body is, and printed after it. *)
Theorem ForLoop_text_with_placeholders
        init cond inc body w init_s cond_s inc_s block :
  text_or "# init" w init = Some init_s ->
  text_or "# cond" w cond = Some cond_s ->
  text_or "# inc" w inc = Some inc_s ->
  block_text (shifted 1 w) body = Some block ->
  generate (ForLoop init cond inc body) w =
    Returns w
      (SStr ("# Original C++ for loop was not transformed" ++ nl
             ++ init_s ++ nl
             ++ "while " ++ cond_s ++ ":" ++ nl
             ++ block
             ++ indent_text (shifted 1 w) ++ inc_s ++ nl)).
Proof.
  intros Hi Hc Hn B. unfold generate. simpl. unfold visit_ForLoop.
  rewrite (bind_of_Returns _ _ _ _ _ (visit_or_text_or _ _ _ _ Hi)).
  rewrite (bind_of_Returns _ _ _ _ _ (visit_or_text_or _ _ _ _ Hc)).
  rewrite (bind_of_Returns _ _ _ _ _ (visit_or_text_or _ _ _ _ Hn)).
  apply emit_lines_block_text in B.
  unfold bind at 1. unfold add_indent at 1. fold (shifted 1 w).
  rewrite (bind_of_Returns _ _ _ _ _ B).
  unfold bind, _indent, add_indent, ret.
  fold (shifted (-1) (shifted 1 w)). rewrite shifted_shifted, shifted_0.
  unfold indent_text. norm_append. reflexivity.
Qed.

Lemma ForLoop_text_with_placeholders_witness :
  let body := [Identifier "work"] in
  let w := mkWorld false 1 in
  (text_or "# init" w PyNone = Some "# init" /\
   text_or "# cond" w (Identifier "busy") = Some "busy" /\
   text_or "# inc" w PyNone = Some "# inc") /\
  block_text (shifted 1 w) body = Some ("        work" ++ nl) /\
  generate (ForLoop PyNone (Identifier "busy") PyNone body) w =
    Returns w
      (SStr ("# Original C++ for loop was not transformed" ++ nl
             ++ "# init" ++ nl
             ++ "while busy:" ++ nl
             ++ "        work" ++ nl
             ++ "        # inc" ++ nl)).
Proof.
  intros body w.
  split; [repeat split|]. split; [reflexivity|].
  exact (ForLoop_text_with_placeholders
           PyNone (Identifier "busy") PyNone body w
           "# init" "busy" "# inc" ("        work" ++ nl)
           eq_refl eq_refl eq_refl eq_refl).
Defined.

(** X8.  On a tree of the data model (every child position a node, the
    initializer of a declaration possibly missing) the generator never
    raises: it returns a [str] and leaves the indentation level and the
    generator class as they were. *)
Theorem generate_returns_text_on_data_model node w :
  conforms node = true ->
  exists text, generate node w = Returns w (SStr text).
Proof.
  intros C. exact (proj1 (conforming_tree_renders node C) w).
Qed.

Lemma generate_returns_text_on_data_model_witness :
  let node := TranslationUnit
                [FunctionDecl "main" [] [counted_loop_i_N [cout_a_x_endl]]
                              "int"] in
  conforms node = true /\
  exists text, generate node (mkWorld false 0) = Returns (mkWorld false 0) (SStr text).
Proof.
  intros node. split; [reflexivity|].
  exact (generate_returns_text_on_data_model node (mkWorld false 0) eq_refl).
Defined.

Lemma world_blind_ret {A} (a : A) : world_blind (ret a).
Proof. intros w1 w2. reflexivity. Qed.

Lemma world_blind_raise {A} e : world_blind (@raise A e).
Proof. intros w1 w2. reflexivity. Qed.

Lemma world_blind_bind {A B} (m : M A) (k : A -> M B) :
  world_blind m -> (forall a, world_blind (k a)) -> world_blind (bind m k).
Proof.
  intros Hm Hk w1 w2. unfold bind. rewrite (Hm w1 w2).
  destruct (m w1) as [w1' a| |]; simpl; [apply Hk | reflexivity | reflexivity].
Qed.

Lemma world_blind_join sep items : world_blind (join sep items).
Proof.
  unfold join. destruct (strings_of items);
    [apply world_blind_ret | apply world_blind_raise].
Qed.

Section HandlersBlind.

Variable visit : value -> M scalar.

Lemma world_blind_visit_each items :
  Forall (fun c => world_blind (visit c)) items ->
  world_blind (visit_each visit items).
Proof.
  induction 1 as [|x l Hx _ IH]; simpl; [apply world_blind_ret|].
  apply world_blind_bind; [exact Hx | intro].
  apply world_blind_bind; [exact IH | intro; apply world_blind_ret].
Qed.

Lemma world_blind_visit_each_but_Identifier items :
  Forall (fun c => world_blind (visit c)) items ->
  world_blind (visit_each_but_Identifier visit items).
Proof.
  induction 1 as [|x l Hx _ IH]; simpl; [apply world_blind_ret|].
  destruct (is_Identifier x); [exact IH|].
  apply world_blind_bind; [exact Hx | intro].
  apply world_blind_bind; [exact IH | intro; apply world_blind_ret].
Qed.

End HandlersBlind.

Lemma Forall_indent_free (P : value -> Prop) l :
  Forall (fun c => indent_free c = true -> P c) l ->
  forallb indent_free l = true ->
  Forall P l.
Proof.
  induction 1 as [|x rest Hx _ IH]; simpl; [constructor|].
  intros H. apply andb_true_iff in H as [H1 H2].
  constructor; [apply Hx, H1 | apply IH, H2].
Qed.

Lemma indent_free_world_blind node :
  indent_free node = true -> world_blind (PythonCodeGenerator_visit node).
Proof.
  induction node using value_tree_ind; intros F; simpl in F;
    try discriminate;
    repeat match goal with
           | H : _ && _ = true |- _ => apply andb_true_iff in H; destruct H
           | H : Forall (fun _ => _ -> _) ?l,
             C : forallb indent_free ?l = true |- _ =>
               apply Forall_indent_free in H; [|exact C]
           end;
    simpl;
    unfold visit_TranslationUnit, visit_VarDecl, visit_CallExpr,
      visit_BinaryOp, visit_UnaryOp, visit_Identifier, visit_Literal;
    repeat first
      [ apply world_blind_ret
      | apply world_blind_join
      | apply world_blind_visit_each; assumption
      | apply world_blind_visit_each_but_Identifier; assumption
      | apply world_blind_bind; [ | intro ]
      | match goal with
        | H : ?P -> world_blind ?m |- world_blind ?m => apply H; assumption
        | |- world_blind (match ?b with _ => _ end) => destruct b
        end ].
Qed.

(** X9.  Expressions and declarations are rendered without regard to the
    nesting depth: on a tree that holds no function definition and no loop,
    the outcome of the generator, text or exception, is the same at every
    indentation level and the state is not changed, also not by an
    exception. *)
Theorem expression_text_independent_of_indent node w1 w2 :
  indent_free node = true ->
  PythonCodeGenerator_visit node w2
  = moved_to w2 (PythonCodeGenerator_visit node w1).
Proof.
  intros F. exact (indent_free_world_blind node F w1 w2).
Qed.

Lemma expression_text_independent_of_indent_witness :
  let node := CallExpr (Identifier "f")
                       [BinaryOp "+" (Identifier "a") (Literal (SInt 1));
                        Scalar (SInt 5)] in
  indent_free node = true /\
  PythonCodeGenerator_visit node (mkWorld true 7)
  = moved_to (mkWorld true 7) (PythonCodeGenerator_visit node (mkWorld false 0)).
Proof.
  intros node. split; [reflexivity|].
  exact (expression_text_independent_of_indent
           node (mkWorld false 0) (mkWorld true 7) eq_refl).
Defined.

Lemma never_raises_ret {A} (a : A) : never_raises (ret a).
Proof. intros w w' e. discriminate. Qed.

Lemma never_raises_indent : never_raises _indent.
Proof. intros w w' e. discriminate. Qed.

Lemma never_raises_add_indent d : never_raises (add_indent d).
Proof. intros w w' e. discriminate. Qed.

Lemma never_raises_bind {A B} (m : M A) (k : A -> M B) :
  never_raises m -> (forall a, never_raises (k a)) -> never_raises (bind m k).
Proof.
  intros Hm Hk w w' e. unfold bind.
  destruct (m w) as [w1 a| |] eqn:E; [apply Hk | | discriminate].
  exfalso. exact (Hm _ _ _ E).
Qed.

Lemma raises_not_below_never {A} (m : M A) :
  never_raises m -> raises_not_below m.
Proof. intros H w w' e E. exfalso. exact (H _ _ _ E). Qed.

Lemma raises_not_below_raise {A} e : raises_not_below (@raise A e).
Proof. intros w w' e' [= <- _]. split; [reflexivity | lia]. Qed.

Lemma raises_not_below_join sep items : raises_not_below (join sep items).
Proof.
  unfold join. destruct (strings_of items);
    [apply raises_not_below_never, never_raises_ret
    | apply raises_not_below_raise].
Qed.

Lemma raises_not_below_bind {A B} d (m : M A) (k : A -> M B) :
  shifts d m -> 0 <= d ->
  raises_not_below m -> (forall a, raises_not_below (k a)) ->
  raises_not_below (bind m k).
Proof.
  intros Sm Hd Rm Rk w w' e. unfold bind.
  destruct (m w) as [w1 a|w1 e1|] eqn:E; [| |discriminate].
  - intros H. apply Rk in H as [H1 H2]. apply Sm in E. subst w1.
    simpl in *. split; [exact H1 | lia].
  - intros [= <- <-]. exact (Rm _ _ _ E).
Qed.

(** Once the level has been taken down again nothing is left that could
    raise. *)
Lemma raises_not_below_leave {B} (k : M B) :
  never_raises k -> raises_not_below (add_indent (-1) ;;; k).
Proof.
  intros H. apply raises_not_below_never.
  apply never_raises_bind; [apply never_raises_add_indent | intro; exact H].
Qed.

Section HandlersRaise.

Variable visit : value -> M scalar.
Hypothesis visit_shifts : forall c, shifts 0 (visit c).

Lemma shifts_all_visit items : Forall (fun c => shifts 0 (visit c)) items.
Proof. apply Forall_forall. intros c _. apply visit_shifts. Qed.

Lemma raises_visit_each items :
  Forall (fun c => raises_not_below (visit c)) items ->
  raises_not_below (visit_each visit items).
Proof.
  induction 1 as [|x l Hx _ IH]; simpl.
  - apply raises_not_below_never, never_raises_ret.
  - apply (raises_not_below_bind 0); [apply visit_shifts | lia | exact Hx |].
    intro. apply (raises_not_below_bind 0);
      [apply shifts_visit_each, shifts_all_visit | lia | exact IH |].
    intro. apply raises_not_below_never, never_raises_ret.
Qed.

Lemma raises_visit_each_but_Identifier items :
  Forall (fun c => raises_not_below (visit c)) items ->
  raises_not_below (visit_each_but_Identifier visit items).
Proof.
  induction 1 as [|x l Hx _ IH]; simpl.
  - apply raises_not_below_never, never_raises_ret.
  - destruct (is_Identifier x); [exact IH|].
    apply (raises_not_below_bind 0); [apply visit_shifts | lia | exact Hx |].
    intro. apply (raises_not_below_bind 0);
      [apply shifts_visit_each_but_Identifier, shifts_all_visit
      | lia | exact IH |].
    intro. apply raises_not_below_never, never_raises_ret.
Qed.

Lemma raises_emit_line stmt :
  raises_not_below (visit stmt) -> raises_not_below (emit_line visit stmt).
Proof.
  intros H. unfold emit_line.
  apply (raises_not_below_bind 0);
    [apply shifts_indent | lia
    | apply raises_not_below_never, never_raises_indent |].
  intro. apply (raises_not_below_bind 0); [apply visit_shifts | lia | exact H |].
  intro. apply raises_not_below_never, never_raises_ret.
Qed.

Lemma raises_emit_lines stmts :
  Forall (fun c => raises_not_below (visit c)) stmts ->
  raises_not_below (emit_lines visit stmts).
Proof.
  induction 1 as [|x l Hx _ IH]; simpl.
  - apply raises_not_below_never, never_raises_ret.
  - apply (raises_not_below_bind 0);
      [apply shifts_emit_line, visit_shifts | lia
      | apply raises_emit_line, Hx |].
    intro. apply (raises_not_below_bind 0);
      [apply shifts_emit_lines, shifts_all_visit | lia | exact IH |].
    intro. apply raises_not_below_never, never_raises_ret.
Qed.

Lemma raises_visit_or placeholder x :
  raises_not_below (visit x) ->
  raises_not_below (visit_or visit placeholder x).
Proof.
  intros H. unfold visit_or. destruct (truthy x);
    [|apply raises_not_below_never, never_raises_ret].
  apply (raises_not_below_bind 0); [apply visit_shifts | lia | exact H |].
  intro. apply raises_not_below_never, never_raises_ret.
Qed.

Lemma raises_emit_PythonForLoop_body stmts :
  Forall (fun c => shifts 0 (emit_PythonForLoop_stmt visit c)) stmts ->
  Forall (fun c => raises_not_below (emit_PythonForLoop_stmt visit c)) stmts ->
  raises_not_below (emit_PythonForLoop_body visit stmts).
Proof.
  intros Hs. induction 1 as [|x l Hx _ IH]; simpl.
  - apply raises_not_below_never, never_raises_ret.
  - inversion Hs; subst.
    apply (raises_not_below_bind 0); [assumption | lia | exact Hx |].
    intro. apply (raises_not_below_bind 0);
      [apply shifts_emit_PythonForLoop_body; assumption | lia
      | apply IH; assumption |].
    intro. apply raises_not_below_never, never_raises_ret.
Qed.

End HandlersRaise.

Lemma all_visit_shifts_0 c : shifts 0 (PythonCodeGenerator_visit c).
Proof. exact (proj1 (visit_shifts_0 c)). Qed.

Lemma all_emit_stmt_shifts_0 stmts :
  Forall (fun c => shifts 0
                     (emit_PythonForLoop_stmt PythonCodeGenerator_visit c))
         stmts.
Proof. apply Forall_forall. intros c _. exact (proj2 (visit_shifts_0 c)). Qed.

Ltac never_tac :=
  repeat first
    [ apply never_raises_ret
    | apply never_raises_indent
    | apply never_raises_add_indent
    | apply never_raises_bind; [ | intro ]
    | match goal with
      | |- never_raises (match ?b with _ => _ end) => destruct b
      end ].

Ltac raises_tac :=
  repeat first
    [ assumption
    | match goal with
      | |- never_raises _ => solve [ never_tac ]
      end
    | apply raises_not_below_join
    | apply raises_not_below_leave
    | apply raises_not_below_never; solve [ never_tac ]
    | apply raises_visit_each; [ apply all_visit_shifts_0 | assumption ]
    | apply raises_visit_each_but_Identifier;
      [ apply all_visit_shifts_0 | assumption ]
    | apply raises_emit_lines; [ apply all_visit_shifts_0 | assumption ]
    | apply raises_emit_line; [ apply all_visit_shifts_0 | assumption ]
    | apply raises_visit_or; [ apply all_visit_shifts_0 | assumption ]
    | apply raises_emit_PythonForLoop_body;
      [ apply all_emit_stmt_shifts_0 | assumption ]
    | apply (raises_not_below_bind 1);
      [ apply shifts_add_indent | lia
      | apply raises_not_below_never, never_raises_add_indent | intro ]
    | apply (raises_not_below_bind 0);
      [ solve [ repeat first
                  [ apply all_visit_shifts_0
                  | apply shifts_join
                  | apply shifts_indent
                  | apply shifts_ret
                  | apply shifts_visit_each, shifts_all_visit,
                    all_visit_shifts_0
                  | apply shifts_visit_each_but_Identifier, shifts_all_visit,
                    all_visit_shifts_0
                  | apply shifts_emit_lines, shifts_all_visit,
                    all_visit_shifts_0
                  | apply shifts_visit_or, all_visit_shifts_0
                  | apply shifts_emit_PythonForLoop_body,
                    all_emit_stmt_shifts_0
                  | apply shifts_bind_0; [ | intro ]
                  | match goal with
                    | |- shifts _ (match ?b with _ => _ end) => destruct b
                    end ] ]
      | lia | | intro ]
    | match goal with
      | |- raises_not_below (match ?b with _ => _ end) => destruct b
      end ].

Lemma visit_raises_not_below node :
  raises_not_below (PythonCodeGenerator_visit node) /\
  raises_not_below (emit_PythonForLoop_stmt PythonCodeGenerator_visit node).
Proof.
  induction node using value_tree_ind; split_hyps.
  - split; raises_tac.
  - split; [|simpl; raises_tac].
    change (raises_not_below
              (visit_TranslationUnit PythonCodeGenerator_visit body)).
    unfold visit_TranslationUnit. raises_tac.
  - split; [|simpl; raises_tac].
    change (raises_not_below
              (visit_FunctionDecl PythonCodeGenerator_visit
                                  name params body return_type)).
    unfold visit_FunctionDecl. raises_tac.
  - assert (raises_not_below
              (PythonCodeGenerator_visit (VarDecl name var_type node))).
    { change (raises_not_below
                (visit_VarDecl PythonCodeGenerator_visit name var_type node)).
      unfold visit_VarDecl. raises_tac. }
    split; [|unfold emit_PythonForLoop_stmt]; raises_tac.
  - assert (raises_not_below
              (PythonCodeGenerator_visit (CallExpr node args))).
    { change (raises_not_below
                (visit_CallExpr PythonCodeGenerator_visit node args)).
      unfold visit_CallExpr. raises_tac. }
    split; [|unfold emit_PythonForLoop_stmt]; raises_tac.
  - assert (raises_not_below
              (PythonCodeGenerator_visit (BinaryOp op node1 node2))).
    { change (raises_not_below
                (visit_BinaryOp PythonCodeGenerator_visit op node1 node2)).
      unfold visit_BinaryOp. raises_tac. }
    split; [|unfold emit_PythonForLoop_stmt]; raises_tac.
  - assert (raises_not_below (PythonCodeGenerator_visit (UnaryOp op node))).
    { change (raises_not_below
                (visit_UnaryOp PythonCodeGenerator_visit op node)).
      unfold visit_UnaryOp. raises_tac. }
    split; [|unfold emit_PythonForLoop_stmt]; raises_tac.
  - split; [|simpl; raises_tac].
    change (raises_not_below
              (visit_ForLoop PythonCodeGenerator_visit
                             node1 node2 node3 body)).
    unfold visit_ForLoop. raises_tac.
  - split; [|unfold emit_PythonForLoop_stmt]; raises_tac.
  - assert (raises_not_below (PythonCodeGenerator_visit (Literal lit)))
      by (destruct lit; apply raises_not_below_never, never_raises_ret).
    split; [|unfold emit_PythonForLoop_stmt]; raises_tac.
  - split; [|simpl; raises_tac].
    change (raises_not_below
              (visit_PythonForLoop PythonCodeGenerator_visit
                                   node1 node2 body)).
    unfold visit_PythonForLoop. raises_tac.
Qed.

(** X10.  An exception can leave the generator's indentation level raised,
    but never lowered: whenever a render raises, the level is at least the
    level at entry, and the generator class is as it was. *)
Theorem indent_not_lowered_by_exception node w w' e :
  PythonCodeGenerator_visit node w = Raises w' e ->
  has_visit_PythonForLoop w' = has_visit_PythonForLoop w /\
  _indent_level w <= _indent_level w'.
Proof. exact (proj1 (visit_raises_not_below node) w w' e). Qed.

Lemma indent_not_lowered_by_exception_witness :
  let node := FunctionDecl "f" []
                [counted_loop_i_N
                   [ForLoop PyNone PyNone PyNone
                            [CallExpr (Identifier "g") [PyNone]]]] "void" in
  let w := mkWorld true 0 in
  let w' := mkWorld true 3 in
  PythonCodeGenerator_visit node w = Raises w' TypeError /\
  has_visit_PythonForLoop w' = has_visit_PythonForLoop w /\
  _indent_level w <= _indent_level w'.
Proof.
  intros node w w'.
  assert (H : PythonCodeGenerator_visit node w = Raises w' TypeError)
    by reflexivity.
  split; [exact H|].
  exact (indent_not_lowered_by_exception node w w' TypeError H).
Defined.

(** ** Further properties: the engine on trees of the data model *)

Lemma stepped_refl w : stepped w w.
Proof. left. reflexivity. Qed.

Lemma stepped_trans w1 w2 w3 : stepped w1 w2 -> stepped w2 w3 -> stepped w1 w3.
Proof.
  intros [->| ->] [->| ->]; [left | right | right | right]; reflexivity.
Qed.

Lemma stepped_patched w : stepped w (patched w).
Proof. right. reflexivity. Qed.

Lemma stepped_flag w w' :
  stepped w w' ->
  has_visit_PythonForLoop w = true -> has_visit_PythonForLoop w' = true.
Proof. intros [->| ->] H; [exact H | reflexivity]. Qed.

Lemma stepped_indent w w' : stepped w w' -> _indent_level w' = _indent_level w.
Proof. intros [->| ->]; reflexivity. Qed.

Lemma conforms_is_Node v : conforms v = true -> is_Node v = true.
Proof. destruct v; [discriminate | reflexivity ..]. Qed.

Lemma unmatched_rewrite_node rules v :
  unmatched rules v = true ->
  rewrite_node rules v = v /\ patches rules v = false.
Proof.
  unfold unmatched, rewrite_node, patches. intros H.
  apply andb_true_iff in H as [H1 H2].
  apply negb_true_iff in H1, H2. unfold patches in H1.
  destruct (counted_loop v) as [[[i b] body]|].
  - rewrite andb_true_r in H1. rewrite H1. split; reflexivity.
  - rewrite H2, andb_false_r. split; reflexivity.
Qed.

Lemma RuleApplier_visit_leaf rules v w :
  (forall visit w, generic_visit visit v w = Returns w v) ->
  unmatched rules v = true ->
  RuleApplier_visit rules v w = Returns w v.
Proof.
  intros G U. rewrite RuleApplier_visit_eq. unfold bind.
  rewrite apply_rules_spec.
  destruct (unmatched_rewrite_node rules v U) as [-> ->]. apply G.
Qed.

Lemma RuleApplier_visit_Identifier rules n w :
  RuleApplier_visit rules (Identifier n) w = Returns w (Identifier n).
Proof.
  apply RuleApplier_visit_leaf; [reflexivity|].
  unfold unmatched, patches. simpl. rewrite !andb_false_r. reflexivity.
Qed.

Lemma RuleApplier_visit_Literal rules l w :
  RuleApplier_visit rules (Literal l) w = Returns w (Literal l).
Proof.
  apply RuleApplier_visit_leaf; [reflexivity|].
  unfold unmatched, patches. simpl. rewrite !andb_false_r. reflexivity.
Qed.

Lemma flatten_cout_chain_In v a :
  In a (_flatten_cout_chain v) ->
  (size a < size v)%nat /\
  (conforms v = true -> conforms a = true) /\
  (contains_PythonForLoop a = true -> contains_PythonForLoop v = true).
Proof.
  induction v; try (simpl; tauto).
  rewrite flatten_cout_chain_BinaryOp. intros H. apply in_app_or in H.
  destruct H as [H|H].
  - destruct (is_shift_op v1); [|destruct H].
    destruct (IHv1 H) as (S1 & C1 & P1). simpl. repeat split.
    + lia.
    + intros C. apply andb_true_iff in C as [C _]. apply C1, C.
    + intros P. rewrite (P1 P). reflexivity.
  - destruct (is_identifier_named "std::endl" v2); [destruct H|].
    destruct H as [<-|[]]. simpl. repeat split.
    + lia.
    + intros C. apply andb_true_iff in C as [_ C]. exact C.
    + intros P. rewrite P. apply orb_true_r.
Qed.

Lemma counted_loop_parts v i bound body :
  counted_loop v = Some (i, bound, body) ->
  exists init op l inc, v = ForLoop init (BinaryOp op l bound) inc body.
Proof.
  destruct v as [ | | | | | | |init cond inc body'| | | ]; try discriminate.
  destruct init as [ | | |i' ty [ | | | | | | | | |v| ]| | | | | | | ];
    try discriminate.
  destruct cond as [ | | | | |op [ | | | | | | | |n| | ] bound'| | | | | ];
    try discriminate.
  destruct inc as [ | | | | | |op' [ | | | | | | | |n'| | ]| | | | ];
    try discriminate.
  unfold counted_loop.
  destruct (eq_zero v && (op =? "<")%string && (n =? i')%string
            && (op' =? "++")%string && (n' =? i')%string); [|discriminate].
  intros [= <- <- <-]. eauto.
Qed.

Lemma reflects_PythonForLoop v target iter body :
  reflects v (PythonForLoop target iter body).
Proof. repeat split; intros; discriminate. Qed.

Lemma reflects_CallExpr v callee args : reflects v (CallExpr callee args).
Proof. repeat split; intros; discriminate. Qed.

Lemma forallb_In {A} (f : A -> bool) l x :
  forallb f l = true -> In x l -> f x = true.
Proof. intros H. apply (proj1 (forallb_forall f l) H). Qed.

Section EngineStep.

Variable rules : list rule.
Variable n : nat.
Hypothesis IH :
  forall c, (size c <= n)%nat -> conforms c = true ->
            forall w, exists w' c',
                RuleApplier_visit rules c w = Returns w' c' /\
                engine_result rules c w w' c'.

Lemma items_step items :
  (forall c, In c items -> (size c <= n)%nat) ->
  forallb conforms items = true ->
  forall w, exists w' items',
      visit_items (RuleApplier_visit rules) items w = Returns w' items' /\
      forallb conforms items' = true /\
      forallb (settled rules) items' = true /\
      (list_sum (map size items') <= list_sum (map size items))%nat /\
      stepped w w' /\
      (existsb contains_PythonForLoop items' = true ->
       existsb contains_PythonForLoop items = true
       \/ has_visit_PythonForLoop w' = true).
Proof.
  induction items as [|c rest IHl]; intros Hs C w.
  - exists w, []. repeat split; try reflexivity; [apply stepped_refl|].
    discriminate.
  - simpl in C. apply andb_true_iff in C as [Cc Cr].
    destruct (IH c (Hs c (or_introl eq_refl)) Cc w)
      as (w1 & c' & E & C' & S' & _ & Z' & W' & P').
    destruct (IHl (fun x Hx => Hs x (or_intror Hx)) Cr w1)
      as (w2 & rest' & El & Cl & Sl & Zl & Wl & Pl).
    exists w2, (c' :: rest'). simpl. unfold bind. rewrite E, El.
    repeat split.
    + rewrite C', Cl. reflexivity.
    + rewrite S', Sl. reflexivity.
    + lia.
    + eapply stepped_trans; eassumption.
    + intros H. apply orb_true_iff in H as [H|H].
      * destruct (P' H) as [Q|Q]; [left; rewrite Q; reflexivity|].
        right. eapply stepped_flag; eassumption.
      * destruct (Pl H) as [Q|Q]; [left; rewrite Q; apply orb_true_r|].
        right. exact Q.
Qed.

Lemma field_step c :
  (size c <= n)%nat -> conforms c = true ->
  forall w, exists w' c',
      visit_field (RuleApplier_visit rules) c w = Returns w' c' /\
      engine_result rules c w w' c'.
Proof.
  intros Hs C w. unfold visit_field. rewrite (conforms_is_Node c C).
  apply IH; assumption.
Qed.

End EngineStep.

Lemma counted_loop_inv v i bound body :
  counted_loop v = Some (i, bound, body) ->
  exists ty z,
    v = ForLoop (VarDecl i ty (Literal z))
                (BinaryOp "<" (Identifier i) bound)
                (UnaryOp "++" (Identifier i)) body
    /\ eq_zero z = true.
Proof.
  destruct v as [ | | | | | | |init cond inc body'| | | ]; try discriminate.
  destruct init as [ | | |i' ty [ | | | | | | | | |v| ]| | | | | | | ];
    try discriminate.
  destruct cond as [ | | | | |op [ | | | | | | | |n| | ] bound'| | | | | ];
    try discriminate.
  destruct inc as [ | | | | | |op' [ | | | | | | | |n'| | ]| | | | ];
    try discriminate.
  unfold counted_loop.
  destruct (eq_zero v) eqn:Z; [|discriminate].
  destruct (String.eqb_spec op "<") as [->|]; [|discriminate].
  destruct (String.eqb_spec n i') as [->|]; [|discriminate].
  destruct (String.eqb_spec op' "++") as [->|]; [|discriminate].
  destruct (String.eqb_spec n' i') as [->|]; [|discriminate].
  intros [= <- <- <-]. exists ty, v. split; [reflexivity | exact Z].
Qed.

Lemma reflects_refl v : reflects v v.
Proof. repeat split; intros; subst; eauto. Qed.

Lemma is_identifier_named_eq n v :
  is_identifier_named n v = true -> v = Identifier n.
Proof.
  destruct v; try discriminate. simpl. intros H.
  apply String.eqb_eq in H. congruence.
Qed.

Lemma unmatched_BinaryOp rules op l r l' r' :
  unmatched rules (BinaryOp op l r) = true ->
  reflects l l' ->
  unmatched rules (BinaryOp op l' r') = true.
Proof.
  unfold unmatched, patches. simpl. rewrite !andb_false_r. simpl.
  intros U (I1 & _ & I3 & _).
  destruct (has_rule StdCoutToPrintRule rules); [|reflexivity].
  simpl in *. destruct (op =? "<<")%string; [|reflexivity]. simpl in *.
  apply negb_true_iff in U. apply orb_false_iff in U as [U1 U2].
  apply negb_true_iff, orb_false_iff. split.
  - destruct (is_identifier_named "std::cout" l') eqn:E; [|reflexivity].
    apply is_identifier_named_eq in E. apply I1 in E. subst l.
    discriminate U1.
  - destruct (is_shift_op l') eqn:E; [|reflexivity].
    specialize (I3 eq_refl). congruence.
Qed.

Lemma unmatched_ForLoop rules init cond inc body init' cond' inc' body' :
  unmatched rules (ForLoop init cond inc body) = true ->
  reflects init init' -> reflects cond cond' -> reflects inc inc' ->
  unmatched rules (ForLoop init' cond' inc' body') = true.
Proof.
  unfold unmatched, patches. rewrite !andb_false_r, !andb_true_r.
  intros U (_ & _ & _ & I4 & _) (_ & _ & _ & _ & I5 & _)
         (_ & _ & _ & _ & _ & I6).
  destruct (has_rule ForLoopToRangeRule rules); [|reflexivity].
  cbn [andb negb] in *.
  destruct (counted_loop (ForLoop init' cond' inc' body'))
    as [[[i b] bd]|] eqn:E; [|reflexivity].
  exfalso. apply counted_loop_inv in E as (ty & z & E & Z).
  injection E as Ei Ec En _.
  apply I4 in Ei. destruct (I5 _ _ _ Ec) as (b0 & Ec'). apply I6 in En.
  subst init cond inc. unfold counted_loop in U.
  rewrite Z, !String.eqb_refl in U. discriminate U.
Qed.

Lemma unmatched_other rules v :
  counted_loop v = None -> cout_pattern v = false ->
  unmatched rules v = true.
Proof.
  intros H1 H2. unfold unmatched, patches. rewrite H1, H2.
  rewrite !andb_false_r. reflexivity.
Qed.

Lemma settled_Scalar rules s : settled rules (Scalar s) = true.
Proof.
  unfold settled, unmatched, patches. simpl. rewrite !andb_false_r.
  reflexivity.
Qed.

Lemma settled_unfold rules v :
  settled rules v =
  unmatched rules v &&
  match v with
  | Scalar _ => true
  | TranslationUnit body => forallb (settled rules) body
  | FunctionDecl _ params body _ =>
      forallb (settled rules) params && forallb (settled rules) body
  | VarDecl _ _ init => settled rules init
  | CallExpr callee args =>
      settled rules callee && forallb (settled rules) args
  | BinaryOp _ left_ right_ => settled rules left_ && settled rules right_
  | UnaryOp _ operand => settled rules operand
  | ForLoop init cond inc body =>
      settled rules init && settled rules cond && settled rules inc
      && forallb (settled rules) body
  | Identifier _ => true
  | Literal _ => true
  | PythonForLoop target iter body =>
      settled rules target && settled rules iter
      && forallb (settled rules) body
  end.
Proof. destruct v; reflexivity. Qed.

Ltac items_sizes :=
  let c := fresh "c" in
  let Hc := fresh "Hc" in
  intros c Hc; apply size_In in Hc; simpl in *; lia.

Ltac flags :=
  eauto 8 using stepped_trans, stepped_refl, stepped_flag, stepped_patched.

Ltac contains_cases H :=
  simpl in H;
  repeat (apply orb_true_iff in H; destruct H as [H|H]).

Ltac contains_tac :=
  let H := fresh "H" in
  intros H; contains_cases H;
  match goal with
  | P : ?a = true -> _ \/ _, H' : ?a = true |- _ =>
      let Q := fresh "Q" in
      destruct (P H') as [Q|Q];
      [ left; simpl; rewrite Q; rewrite ?orb_true_r; reflexivity
      | right; flags ]
  end.

Lemma engine_on_data_model rules n :
  forall v, (size v <= n)%nat -> conforms v = true ->
  forall w, exists w' v',
      RuleApplier_visit rules v w = Returns w' v' /\
      engine_result rules v w w' v'.
Proof.
  induction n as [|n IHn]; intros v Hs C w.
  { pose proof (size_pos v). lia. }
  rewrite RuleApplier_visit_eq. unfold bind at 1. rewrite apply_rules_spec.
  destruct (unmatched rules v) eqn:U.
  - destruct (unmatched_rewrite_node rules v U) as [-> ->].
    destruct v as [s|body|name params body rt|name ty init|callee args
                  |op l r|op o|init cond inc body|name|lit|target iter body];
      simpl in Hs, C; try discriminate;
      repeat match goal with
             | H : _ && _ = true |- _ => apply andb_true_iff in H; destruct H
             end.
    + (* TranslationUnit *)
      destruct (items_step rules n IHn body ltac:(items_sizes) C w)
        as (w1 & body' & E & Cb & Sb & Zb & Wb & Pb).
      exists w1, (TranslationUnit body'). split.
      { simpl. unfold bind. rewrite E. reflexivity. }
      split; [exact Cb|]. split.
      { rewrite settled_unfold, Sb, unmatched_other; reflexivity. }
      split; [repeat split; intros; discriminate|].
      split; [simpl; lia|]. split; [exact Wb|]. contains_tac.
    + (* FunctionDecl *)
      destruct (items_step rules n IHn params ltac:(items_sizes)
                           ltac:(assumption) w)
        as (w1 & params' & E1 & C1 & S1 & Z1 & W1 & P1).
      destruct (items_step rules n IHn body ltac:(items_sizes)
                           ltac:(assumption) w1)
        as (w2 & body' & E2 & C2 & S2 & Z2 & W2 & P2).
      exists w2, (FunctionDecl name params' body' rt). split.
      { simpl. unfold bind. rewrite E1, E2. reflexivity. }
      split; [simpl; rewrite C1, C2; reflexivity|]. split.
      { rewrite settled_unfold, S1, S2, unmatched_other; reflexivity. }
      split; [repeat split; intros; discriminate|].
      split; [simpl; lia|]. split; [flags|]. contains_tac.
    + (* VarDecl *)
      destruct (is_Node init) eqn:N.
      * assert (Ci : conforms init = true)
          by (destruct init; [discriminate | assumption ..]).
        destruct (field_step rules n IHn init ltac:(lia) Ci w)
          as (w1 & init' & E & Ci' & Si & Ri & Zi & Wi & Pi).
        exists w1, (VarDecl name ty init'). split.
        { simpl. unfold bind. rewrite E. reflexivity. }
        split.
        { simpl. rewrite Ci'. destruct init' as [[]| | | | | | | | | | ];
            reflexivity || discriminate. }
        split.
        { rewrite settled_unfold, Si, unmatched_other; reflexivity. }
        split.
        { destruct Ri as (_ & I2 & _).
          repeat split; intros; try discriminate.
          match goal with Hv : VarDecl _ _ _ = VarDecl _ _ _ |- _ =>
            injection Hv as -> -> Hlit end.
          apply I2 in Hlit. subst init. reflexivity. }
        split; [simpl; lia|]. split; [exact Wi|]. contains_tac.
      * destruct init as [s| | | | | | | | | | ]; try discriminate.
        exists w, (VarDecl name ty (Scalar s)). split; [reflexivity|].
        split; [exact C|]. split.
        { rewrite settled_unfold, settled_Scalar, unmatched_other;
            reflexivity. }
        split; [apply reflects_refl|]. split; [lia|].
        split; [apply stepped_refl|]. discriminate.
    + (* CallExpr *)
      destruct (field_step rules n IHn callee ltac:(lia) ltac:(assumption) w)
        as (w1 & callee' & E1 & C1 & S1 & R1 & Z1 & W1 & P1).
      destruct (items_step rules n IHn args ltac:(items_sizes)
                           ltac:(assumption) w1)
        as (w2 & args' & E2 & C2 & S2 & Z2 & W2 & P2).
      exists w2, (CallExpr callee' args'). split.
      { simpl. unfold bind. rewrite E1, E2. reflexivity. }
      split; [simpl; rewrite C1, C2; reflexivity|]. split.
      { rewrite settled_unfold, S1, S2, unmatched_other; reflexivity. }
      split; [apply reflects_CallExpr|].
      split; [simpl; lia|]. split; [flags|]. contains_tac.
    + (* BinaryOp *)
      destruct (field_step rules n IHn l ltac:(lia) ltac:(assumption) w)
        as (w1 & l' & E1 & C1 & S1 & R1 & Z1 & W1 & P1).
      destruct (field_step rules n IHn r ltac:(lia) ltac:(assumption) w1)
        as (w2 & r' & E2 & C2 & S2 & R2 & Z2 & W2 & P2).
      exists w2, (BinaryOp op l' r'). split.
      { simpl. unfold bind. rewrite E1, E2. reflexivity. }
      split; [simpl; rewrite C1, C2; reflexivity|]. split.
      { rewrite settled_unfold, S1, S2,
          (unmatched_BinaryOp rules op l r l' r' U R1); reflexivity. }
      split.
      { destruct R1 as (I1 & _).
        repeat split; intros; try discriminate.
        - assumption.
        - match goal with Hv : BinaryOp _ _ _ = BinaryOp _ _ _ |- _ =>
            injection Hv as -> Hid _ end.
          apply I1 in Hid. subst l. eauto. }
      split; [simpl; lia|]. split; [flags|]. contains_tac.
    + (* UnaryOp *)
      destruct (field_step rules n IHn o ltac:(lia) C w)
        as (w1 & o' & E1 & C1 & S1 & R1 & Z1 & W1 & P1).
      exists w1, (UnaryOp op o'). split.
      { simpl. unfold bind. rewrite E1. reflexivity. }
      split; [exact C1|]. split.
      { rewrite settled_unfold, S1, unmatched_other; reflexivity. }
      split.
      { destruct R1 as (I1 & _).
        repeat split; intros; try discriminate.
        match goal with Hv : UnaryOp _ _ = UnaryOp _ _ |- _ =>
          injection Hv as -> Hid end.
        apply I1 in Hid. subst o. reflexivity. }
      split; [simpl; lia|]. split; [exact W1|]. contains_tac.
    + (* ForLoop *)
      destruct (field_step rules n IHn init ltac:(lia) ltac:(assumption) w)
        as (w1 & init' & E1 & C1 & S1 & R1 & Z1 & W1 & P1).
      destruct (field_step rules n IHn cond ltac:(lia) ltac:(assumption) w1)
        as (w2 & cond' & E2 & C2 & S2 & R2 & Z2 & W2 & P2).
      destruct (field_step rules n IHn inc ltac:(lia) ltac:(assumption) w2)
        as (w3 & inc' & E3 & C3 & S3 & R3 & Z3 & W3 & P3).
      destruct (items_step rules n IHn body ltac:(items_sizes)
                           ltac:(assumption) w3)
        as (w4 & body' & E4 & C4 & S4 & Z4 & W4 & P4).
      exists w4, (ForLoop init' cond' inc' body'). split.
      { simpl. unfold bind. rewrite E1, E2, E3, E4. reflexivity. }
      split; [simpl; rewrite C1, C2, C3, C4; reflexivity|]. split.
      { rewrite settled_unfold, S1, S2, S3, S4,
          (unmatched_ForLoop rules _ _ _ body _ _ _ body' U R1 R2 R3);
          reflexivity. }
      split; [repeat split; intros; discriminate|].
      split; [simpl; lia|]. split; [flags|]. contains_tac.
    + (* Identifier *)
      exists w, (Identifier name). split; [reflexivity|].
      split; [reflexivity|]. split.
      { rewrite settled_unfold, unmatched_other; reflexivity. }
      split; [apply reflects_refl|]. split; [lia|].
      split; [apply stepped_refl|]. discriminate.
    + (* Literal *)
      exists w, (Literal lit). split; [reflexivity|].
      split; [reflexivity|]. split.
      { rewrite settled_unfold, unmatched_other; reflexivity. }
      split; [apply reflects_refl|]. split; [lia|].
      split; [apply stepped_refl|]. discriminate.
    + (* PythonForLoop *)
      destruct (field_step rules n IHn target ltac:(lia) ltac:(assumption) w)
        as (w1 & target' & E1 & C1 & S1 & R1 & Z1 & W1 & P1).
      destruct (field_step rules n IHn iter ltac:(lia) ltac:(assumption) w1)
        as (w2 & iter' & E2 & C2 & S2 & R2 & Z2 & W2 & P2).
      destruct (items_step rules n IHn body ltac:(items_sizes)
                           ltac:(assumption) w2)
        as (w3 & body' & E3 & C3 & S3 & Z3 & W3 & P3).
      exists w3, (PythonForLoop target' iter' body'). split.
      { simpl. unfold bind. rewrite E1, E2, E3. reflexivity. }
      split; [simpl; rewrite C1, C2, C3; reflexivity|]. split.
      { rewrite settled_unfold, S1, S2, S3, unmatched_other; reflexivity. }
      split; [apply reflects_PythonForLoop|].
      split; [simpl; lia|]. split; [flags|]. intros _. left. reflexivity.
  - unfold unmatched in U. apply andb_false_iff in U.
    destruct U as [U|U]; apply negb_false_iff in U.
    + (* a counted loop, and the rule for it in the list *)
      rewrite U. unfold patches in U. apply andb_true_iff in U as [U1 U2].
      unfold rewrite_node. rewrite U1.
      destruct (counted_loop v) as [[[i bound] body]|] eqn:E; [|discriminate].
      destruct (counted_loop_parts v i bound body E)
        as (init & op & l & inc & ->).
      simpl in Hs, C.
      repeat match goal with
             | H : _ && _ = true |- _ => apply andb_true_iff in H; destruct H
             end.
      destruct (field_step rules n IHn bound ltac:(lia) ltac:(assumption)
                           (patched w))
        as (w1 & bound' & E1 & C1 & S1 & R1 & Z1 & W1 & P1).
      destruct (items_step rules n IHn body ltac:(items_sizes)
                           ltac:(assumption) w1)
        as (w2 & body' & E2 & C2 & S2 & Z2 & W2 & P2).
      exists w2, (PythonForLoop (Identifier i) bound' body'). split.
      { unfold generic_visit, bind. unfold visit_field at 1. cbn [is_Node].
        rewrite RuleApplier_visit_Identifier, E1, E2. reflexivity. }
      split; [simpl; rewrite C1, C2; reflexivity|]. split.
      { rewrite settled_unfold, S1, S2, unmatched_other by reflexivity.
        rewrite settled_unfold, unmatched_other; reflexivity. }
      split; [apply reflects_PythonForLoop|].
      split; [simpl; lia|].
      assert (W0 : stepped w (patched w)) by apply stepped_patched.
      split; [flags|].
      intros _. right.
      assert (F : has_visit_PythonForLoop (patched w) = true) by reflexivity.
      flags.
    + (* a chain the print rule takes, and that rule in the list *)
      apply andb_true_iff in U as [U1 U2].
      destruct v as [ | | | | |op l r| | | | | ]; try discriminate U2.
      assert (Pf : patches rules (BinaryOp op l r) = false)
        by (unfold patches; simpl; apply andb_false_r).
      rewrite Pf. unfold rewrite_node.
      change (counted_loop (BinaryOp op l r)) with (@None (string * value * list value)).
      cbv iota. rewrite U1, U2. cbn [andb].
      assert (Ca : forallb conforms (_flatten_cout_chain (BinaryOp op l r))
                   = true).
      { apply forallb_forall. intros a Ha.
        apply flatten_cout_chain_In in Ha as (_ & Hc & _). apply Hc, C. }
      assert (Sa : forall a, In a (_flatten_cout_chain (BinaryOp op l r)) ->
                             (size a <= n)%nat).
      { intros a Ha. apply flatten_cout_chain_In in Ha as (Hlt & _). lia. }
      destruct (items_step rules n IHn _ Sa Ca w)
        as (w1 & args' & E1 & C1 & S1 & Z1 & W1 & P1).
      exists w1, (CallExpr (Identifier "print") args'). split.
      { unfold generic_visit, bind. unfold visit_field at 1. cbn [is_Node].
        rewrite RuleApplier_visit_Identifier, E1. reflexivity. }
      split; [simpl; exact C1|]. split.
      { rewrite settled_unfold, S1, unmatched_other by reflexivity.
        rewrite settled_unfold, unmatched_other; reflexivity. }
      split; [apply reflects_CallExpr|].
      split.
      { pose proof (flatten_cout_chain_size op l r).
        change (size (CallExpr (Identifier "print") args'))
          with (S (1 + list_sum (map size args'))).
        lia. }
      split; [exact W1|].
      intros H. simpl in H. destruct (P1 H) as [Q|Q]; [left | right; exact Q].
      apply existsb_exists in Q as (a & Ha & Pa).
      apply flatten_cout_chain_In in Ha as (_ & _ & Hp). apply Hp, Pa.
Qed.

Lemma Forall_conforms_settled rules (P : value -> Prop) l :
  Forall (fun c => conforms c = true -> settled rules c = true -> P c) l ->
  forallb conforms l = true ->
  forallb (settled rules) l = true ->
  Forall P l.
Proof.
  induction 1 as [|x rest Hx _ IH]; simpl; [constructor|].
  intros C S. apply andb_true_iff in C as [C1 C2].
  apply andb_true_iff in S as [S1 S2].
  constructor; [apply Hx; assumption | apply IH; assumption].
Qed.

(** A tree of the data model in which no rule of the list applies anywhere
    comes back from the engine as it went in, and so does the state. *)
Lemma settled_tree_unchanged rules v :
  conforms v = true -> settled rules v = true ->
  forall w, RuleApplier_visit rules v w = Returns w v.
Proof.
  induction v using value_tree_ind; intros C S w;
    rewrite settled_unfold in S; apply andb_true_iff in S as [U S];
    simpl in C; try discriminate;
    rewrite RuleApplier_visit_eq; unfold bind at 1;
    rewrite apply_rules_spec;
    destruct (unmatched_rewrite_node rules _ U) as [-> ->];
    repeat match goal with
           | H : _ && _ = true |- _ => apply andb_true_iff in H; destruct H
           end;
    repeat match goal with
           | H : Forall (fun _ => _ -> _ -> _) ?l,
             C1 : forallb conforms ?l = true,
             S1 : forallb (settled rules) ?l = true |- _ =>
               apply (Forall_conforms_settled rules _ l) in H;
               [ | exact C1 | exact S1 ]
           end;
    try reflexivity;
    simpl generic_visit; unfold bind;
    repeat first
      [ rewrite visit_items_identity by assumption
      | rewrite visit_field_identity by (intros; auto) ];
    try reflexivity.
  (* the initializer of a declaration, which may be missing *)
  unfold visit_field. destruct v as [s| | | | | | | | | | ];
    [reflexivity | simpl is_Node; rewrite IHv by assumption; reflexivity ..].
Qed.

(** X11.  On a tree of the data model the engine never raises, whatever the
    rule list: it returns a tree of the data model that is no larger than
    the one it was given, and leaves the generator's indentation level
    alone. *)
Theorem RuleApplier_visit_keeps_data_model rules v w :
  conforms v = true ->
  exists w' v',
    RuleApplier_visit rules v w = Returns w' v' /\
    conforms v' = true /\
    (size v' <= size v)%nat /\
    _indent_level w' = _indent_level w.
Proof.
  intros C.
  destruct (engine_on_data_model rules (size v) v (le_n _) C w)
    as (w' & v' & E & C' & _ & _ & Z & W & _).
  exists w', v'. repeat split; try assumption. apply stepped_indent, W.
Qed.

Lemma RuleApplier_visit_keeps_data_model_witness :
  let v := TranslationUnit
             [FunctionDecl "main" [] [counted_loop_i_N [cout_a_x_endl]] "int"] in
  let w := mkWorld false 0 in
  conforms v = true /\
  exists w' v',
    RuleApplier_visit [ForLoopToRangeRule; StdCoutToPrintRule] v w
    = Returns w' v' /\
    conforms v' = true /\
    (size v' <= size v)%nat /\
    _indent_level w' = _indent_level w.
Proof.
  intros v w. split; [reflexivity|].
  exact (RuleApplier_visit_keeps_data_model
           [ForLoopToRangeRule; StdCoutToPrintRule] v w eq_refl).
Defined.

(** X12.  One pass of the engine is enough: on the tree that the engine
    returned for a tree of the data model, a second pass with the same rule
    list finds nothing to rewrite and returns that tree, in whatever state
    it is started. *)
Theorem RuleApplier_visit_idempotent rules v w w' v' :
  conforms v = true ->
  RuleApplier_visit rules v w = Returns w' v' ->
  forall w'', RuleApplier_visit rules v' w'' = Returns w'' v'.
Proof.
  intros C E.
  destruct (engine_on_data_model rules (size v) v (le_n _) C w)
    as (w1 & v1 & E1 & C1 & S1 & _).
  rewrite E in E1. injection E1 as <- <-.
  apply settled_tree_unchanged; assumption.
Qed.

Lemma RuleApplier_visit_idempotent_witness :
  let rules := [ForLoopToRangeRule; StdCoutToPrintRule] in
  let v := counted_loop_i_N [shift_chain_not_from_cout; cout_a_x_endl] in
  let v' := bounded_iteration_i_N
              [CallExpr (Identifier "print") [Identifier "b"; Identifier "c"];
               CallExpr (Identifier "print")
                        [Literal (SStr "a"); Identifier "x"]] in
  let w := mkWorld false 0 in
  conforms v = true /\
  RuleApplier_visit rules v w = Returns (patched w) v' /\
  RuleApplier_visit rules v' (patched w) = Returns (patched w) v'.
Proof.
  intros rules v v' w.
  assert (E : RuleApplier_visit rules v w = Returns (patched w) v')
    by reflexivity.
  split; [reflexivity|]. split; [exact E|].
  exact (RuleApplier_visit_idempotent rules v w (patched w) v'
           eq_refl E (patched w)).
Defined.

Lemma unmatched_nil v : unmatched [] v = true.
Proof. reflexivity. Qed.

Lemma settled_nil v : settled [] v = true.
Proof.
  induction v using value_tree_ind;
    rewrite settled_unfold, unmatched_nil; cbn [andb];
    repeat match goal with
           | H : Forall _ ?l |- _ =>
               assert (forallb (settled []) l = true)
                 by (apply forallb_forall, Forall_forall; exact H);
               clear H
           end;
    repeat match goal with
           | H : _ = true |- _ => rewrite H; clear H
           end;
    reflexivity.
Qed.

(** X13.  A tree of the data model in which no rule of the list applies at
    any node passes through the engine unchanged and leaves the state
    untouched; with an empty rule list that is every tree of the data
    model. *)
Theorem RuleApplier_visit_identity_where_nothing_matches rules v w :
  conforms v = true ->
  (settled rules v = true -> RuleApplier_visit rules v w = Returns w v) /\
  RuleApplier_visit [] v w = Returns w v.
Proof.
  intros C. split.
  - intros S. apply settled_tree_unchanged; assumption.
  - apply settled_tree_unchanged; [exact C | apply settled_nil].
Qed.

Lemma RuleApplier_visit_identity_where_nothing_matches_witness :
  let v := FunctionDecl "f" [VarDecl "a" "int" PyNone]
                        [while_loop_over_x;
                         BinaryOp "<<" (Identifier "a") (Literal (SInt 2))]
                        "int" in
  let rules := [StdCoutToPrintRule; ForLoopToRangeRule] in
  let w := mkWorld false 4 in
  (conforms v = true /\ settled rules v = true) /\
  RuleApplier_visit rules v w = Returns w v.
Proof.
  intros v rules w. split; [split; reflexivity|].
  exact (proj1 (RuleApplier_visit_identity_where_nothing_matches rules v w
                  eq_refl) eq_refl).
Defined.

(** X14.  A bounded-iteration node never reaches the generator before its
    render method is in place: if the tree given to the engine holds no
    such node and the tree it returns holds one, the class
    [PythonCodeGenerator] has [visit_PythonForLoop] when the engine
    returns. *)
Theorem PythonForLoop_comes_with_its_handler rules v w w' v' :
  conforms v = true ->
  contains_PythonForLoop v = false ->
  RuleApplier_visit rules v w = Returns w' v' ->
  contains_PythonForLoop v' = true ->
  has_visit_PythonForLoop w' = true.
Proof.
  intros C N E P.
  destruct (engine_on_data_model rules (size v) v (le_n _) C w)
    as (w1 & v1 & E1 & _ & _ & _ & _ & _ & P1).
  rewrite E in E1. injection E1 as <- <-.
  destruct (P1 P) as [Q|Q]; [congruence | exact Q].
Qed.

Lemma PythonForLoop_comes_with_its_handler_witness :
  let v := FunctionDecl "f" [] [counted_loop_i_N [Identifier "x"]] "void" in
  let v' := FunctionDecl "f" [] [bounded_iteration_i_N [Identifier "x"]]
                         "void" in
  let w := mkWorld false 0 in
  (conforms v = true /\ contains_PythonForLoop v = false) /\
  (RuleApplier_visit [ForLoopToRangeRule] v w = Returns (patched w) v' /\
   contains_PythonForLoop v' = true) /\
  has_visit_PythonForLoop (patched w) = true.
Proof.
  intros v v' w.
  assert (E : RuleApplier_visit [ForLoopToRangeRule] v w
              = Returns (patched w) v') by reflexivity.
  split; [split; reflexivity|]. split; [split; [exact E | reflexivity]|].
  exact (PythonForLoop_comes_with_its_handler
           [ForLoopToRangeRule] v w (patched w) v'
           eq_refl eq_refl E eq_refl).
Defined.

(** X15.  Once the parser has delivered a tree of the data model, the rest
    of [Terminator.convert] cannot fail: the rules are applied, the result
    is rendered, a [str] comes back, and the generator's indentation level
    is what it was when the parser returned. *)
Theorem Terminator_convert_returns_text parse rules cpp_code w w1 ast :
  parse cpp_code w = Returns w1 ast ->
  conforms ast = true ->
  exists w' text,
    Terminator_convert parse rules cpp_code w = Returns w' (SStr text) /\
    _indent_level w' = _indent_level w1.
Proof.
  intros Ep C. unfold Terminator_convert.
  rewrite (bind_of_Returns _ _ _ _ _ Ep).
  destruct (engine_on_data_model rules (size ast) ast (le_n _) C w1)
    as (w2 & ast' & E & C' & _ & _ & _ & W & _).
  rewrite (bind_of_Returns _ _ _ _ _ E).
  destruct (proj1 (conforming_tree_renders ast' C') w2) as (text & G).
  exists w2, text. split; [exact G | apply stepped_indent, W].
Qed.

Lemma Terminator_convert_returns_text_witness :
  let ast := TranslationUnit
               [FunctionDecl "main" [] [counted_loop_i_N [cout_a_x_endl]]
                             "int"] in
  let parse := fun _ : string => ret ast in
  let w := mkWorld false 0 in
  (parse "source" w = Returns w ast /\ conforms ast = true) /\
  exists w' text,
    Terminator_convert parse [ForLoopToRangeRule; StdCoutToPrintRule]
                       "source" w
    = Returns w' (SStr text) /\
    _indent_level w' = _indent_level w.
Proof.
  intros ast parse w. split; [split; reflexivity|].
  exact (Terminator_convert_returns_text
           parse [ForLoopToRangeRule; StdCoutToPrintRule] "source" w w ast
           eq_refl eq_refl).
Defined.

(** ** Further properties: type map, calls *)

Lemma remove_const_prefixes n s :
  remove_const (repeat_string "const " n ++ s) = remove_const s.
Proof. induction n as [|n IH]; [reflexivity | simpl; exact IH]. Qed.

(** X16.  The type map never makes up an annotation: what it yields is one
    of [int], [float], [bool], [str] and [None].  Any number of leading
    [const] qualifiers is stripped before the lookup. *)
Theorem _map_type_range_and_const cpp_type :
  (forall py_type,
      _map_type cpp_type = Some py_type ->
      In py_type ["int"; "float"; "bool"; "str"; "None"]) /\
  (forall n,
      _map_type (repeat_string "const " n ++ cpp_type) = _map_type cpp_type).
Proof.
  split.
  - intros p. unfold _map_type.
    repeat match goal with
           | |- (if ?b then _ else _) = _ -> _ => destruct b
           end;
      intros [= <-]; simpl; tauto.
  - intros n. unfold _map_type. rewrite remove_const_prefixes. reflexivity.
Qed.

Lemma _map_type_range_and_const_witness :
  _map_type "const const double" = Some "float" /\
  In "float" ["int"; "float"; "bool"; "str"; "None"].
Proof.
  split; [reflexivity|].
  exact (proj1 (_map_type_range_and_const "const const double")
               "float" eq_refl).
Defined.

Lemma visit_CallExpr_renders callee args w c texts :
  rendering w callee = Some c ->
  Forall2 (renders_to w) args texts ->
  generate (CallExpr callee args) w
  = Returns w (SStr (c ++ "(" ++ join_strings ", " texts ++ ")")).
Proof.
  intros Rc Ha. apply rendering_Some in Rc as (sc & Ec & <-).
  unfold generate. simpl. unfold visit_CallExpr.
  rewrite (bind_of_Returns _ _ _ _ _ Ec).
  rewrite (bind_of_Returns _ _ _ _ _ (visit_each_renders w args texts Ha)).
  rewrite (bind_of_Returns _ _ _ _ _ (join_map_SStr _ _ _)).
  reflexivity.
Qed.

(** X17.  Rule and generator together: the chain
    [std::cout << x1 << ... << xn] comes out as [print(t1, ..., tk)], where
    the [t]s are the renderings, in order, of the operands other than
    [std::endl]; a chain of nothing but [std::endl] comes out as
    [print()]. *)
Theorem cout_chain_prints operands texts w :
  operands <> [] ->
  Forall2 (renders_to w) (filter kept_operand operands) texts ->
  exists call,
    StdCoutToPrintRule_visit (shift_chain (Identifier "std::cout") operands) w
    = Returns w call /\
    generate call w
    = Returns w (SStr ("print(" ++ join_strings ", " texts ++ ")")).
Proof.
  intros H R. eexists. split.
  - apply StdCoutToPrintRule_visit_shift_chain, H.
  - apply (visit_CallExpr_renders (Identifier "print") _ w "print" texts);
      [reflexivity | exact R].
Qed.

Lemma cout_chain_prints_witness :
  let operands := [Identifier "std::endl"; Literal (SStr "n =");
                   BinaryOp "+" (Identifier "n") (Literal (SInt 1));
                   Identifier "std::endl"] in
  let texts := [dquote ++ "n =" ++ dquote; "(n + 1)"] in
  let w := mkWorld false 0 in
  (operands <> [] /\
   Forall2 (renders_to w) (filter kept_operand operands) texts) /\
  exists call,
    StdCoutToPrintRule_visit (shift_chain (Identifier "std::cout") operands) w
    = Returns w call /\
    generate call w
    = Returns w (SStr ("print(" ++ dquote ++ "n =" ++ dquote ++ ", (n + 1))")).
Proof.
  intros operands texts w.
  assert (H : operands <> []) by discriminate.
  assert (R : Forall2 (renders_to w) (filter kept_operand operands) texts)
    by (repeat constructor).
  split; [split; assumption|].
  exact (cout_chain_prints operands texts w H R).
Defined.

Lemma strings_of_not_str items :
  existsb (fun s => negb (is_str s)) items = true ->
  strings_of items = None.
Proof.
  induction items as [|s rest IH]; simpl; [discriminate|].
  destruct s; simpl; try reflexivity.
  intros H. rewrite (IH H). reflexivity.
Qed.

Lemma visit_each_results w items results :
  Forall2 (fun a s => PythonCodeGenerator_visit a w = Returns w s)
          items results ->
  visit_each PythonCodeGenerator_visit items w = Returns w results.
Proof.
  induction 1 as [|x t items texts Hx _ IH]; [reflexivity|].
  simpl. unfold bind. rewrite Hx, IH. reflexivity.
Qed.

(** X18.  A call is rendered only if every argument renders to a [str].
    When all the arguments have been visited and one of them came back as
    something else (a plain number or [None] standing where a node
    belongs), [join] raises [TypeError]; the state is as it was before the
    call was visited. *)
Theorem CallExpr_argument_not_text_raises callee args w c results :
  PythonCodeGenerator_visit callee w = Returns w c ->
  Forall2 (fun a s => PythonCodeGenerator_visit a w = Returns w s)
          args results ->
  existsb (fun s => negb (is_str s)) results = true ->
  generate (CallExpr callee args) w = Raises w TypeError.
Proof.
  intros Ec Ea N. unfold generate. simpl. unfold visit_CallExpr.
  rewrite (bind_of_Returns _ _ _ _ _ Ec).
  rewrite (bind_of_Returns _ _ _ _ _ (visit_each_results w args results Ea)).
  unfold bind, join. rewrite (strings_of_not_str results N). reflexivity.
Qed.

Lemma CallExpr_argument_not_text_raises_witness :
  let args := [Identifier "x"; PyNone] in
  let results := [SStr "x"; SNone] in
  let w := mkWorld false 2 in
  (PythonCodeGenerator_visit (Identifier "f") w = Returns w (SStr "f") /\
   Forall2 (fun a s => PythonCodeGenerator_visit a w = Returns w s)
           args results /\
   existsb (fun s => negb (is_str s)) results = true) /\
  generate (CallExpr (Identifier "f") args) w = Raises w TypeError.
Proof.
  intros args results w.
  assert (Ea : Forall2 (fun a s => PythonCodeGenerator_visit a w = Returns w s)
                       args results) by (repeat constructor).
  split; [split; [reflexivity | split; [exact Ea | reflexivity]]|].
  exact (CallExpr_argument_not_text_raises
           (Identifier "f") args w (SStr "f") results eq_refl Ea eq_refl).
Defined.

(** ** C2: the engine rewrites in pre-order *)

Lemma visit_with_each_rule_in_order rules node w node' w' :
  visit_with_each_rule rules node w = Returns w' node' <->
  rules_in_order rules node w node' w'.
Proof.
  split.
  - revert node w. induction rules as [|r rest IH]; intros node w H.
    + injection H as <- <-. constructor.
    + simpl in H. apply bind_Returns in H as (w1 & n1 & H1 & H2).
      econstructor; [exact H1 | apply IH, H2].
  - induction 1 as [|r rest node w node1 w1 node' w' H1 _ IH];
      [reflexivity|].
    simpl. rewrite (bind_of_Returns _ _ _ _ _ H1). exact IH.
Qed.

(** What a run that returns has done. *)
Section RunsAreProcessing.

Variable rules : list rule_object.
Variable visit : value -> M value.
Hypothesis visit_processes :
  forall c w c' w',
    visit c w = Returns w' c' -> rewrite_then_descend rules c w c' w'.

Lemma visit_items_processes items w items' w' :
  visit_items visit items w = Returns w' items' ->
  each_processed rules items w items' w'.
Proof.
  revert w items'. induction items as [|x rest IH]; intros w items' H.
  - injection H as <- <-. constructor.
  - simpl in H. apply bind_Returns in H as (w1 & x' & H1 & H).
    apply bind_Returns in H as (w2 & rest' & H2 & H).
    injection H as <- <-.
    econstructor; [apply visit_processes, H1 | apply IH, H2].
Qed.

Lemma visit_field_processes c w c' w' :
  visit_field visit c w = Returns w' c' ->
  field_processed rules c w c' w'.
Proof.
  unfold visit_field. destruct (is_Node c) eqn:N; intros H.
  - apply field_with_node; [exact N | apply visit_processes, H].
  - injection H as <- <-. apply field_without_node, N.
Qed.

Lemma generic_visit_processes node w node' w' :
  generic_visit visit node w = Returns w' node' ->
  children_processed rules node w node' w'.
Proof.
  destruct node; simpl; intros H; try discriminate;
    repeat match goal with
           | H : bind _ _ _ = Returns _ _ |- _ =>
               let w1 := fresh "w" in
               let a := fresh "a" in
               let H1 := fresh "H" in
               apply bind_Returns in H as (w1 & a & H1 & H)
           end;
    injection H as <- <-;
    repeat match goal with
           | H : visit_items _ _ _ = Returns _ _ |- _ =>
               apply visit_items_processes in H
           | H : visit_field _ _ _ = Returns _ _ |- _ =>
               apply visit_field_processes in H
           end;
    econstructor; eassumption.
Qed.

End RunsAreProcessing.

Lemma RuleApplier_visit_any_processes rules fuel :
  forall node w node' w',
    RuleApplier_visit_any fuel rules node w = Returns w' node' ->
    rewrite_then_descend rules node w node' w'.
Proof.
  induction fuel as [|fuel IH]; intros node w node' w' H; [discriminate|].
  simpl in H. apply bind_Returns in H as (w1 & node1 & H1 & H2).
  econstructor.
  - apply visit_with_each_rule_in_order, H1.
  - eapply generic_visit_processes; [exact IH | exact H2].
Qed.

Ltac enough_fuel :=
  match goal with
  | H1 : forall f, (?a <= f)%nat -> _, H2 : forall f, (?b <= f)%nat -> _,
    H3 : forall f, (?c <= f)%nat -> _, H4 : forall f, (?d <= f)%nat -> _
    |- _ => exists (a + b + c + d)%nat
  | H1 : forall f, (?a <= f)%nat -> _, H2 : forall f, (?b <= f)%nat -> _,
    H3 : forall f, (?c <= f)%nat -> _ |- _ => exists (a + b + c)%nat
  | H1 : forall f, (?a <= f)%nat -> _, H2 : forall f, (?b <= f)%nat -> _
    |- _ => exists (a + b)%nat
  | H1 : forall f, (?a <= f)%nat -> _ |- _ => exists a
  | |- _ => exists O
  end.

Ltac run_with_fuel f :=
  repeat (match goal with
          | H : forall f', (_ <= f')%nat -> _ = Returns _ _ |- _ =>
              rewrite (H f) by lia
          end; cbv beta iota).

(** Every processing is a run of the engine. *)
Lemma processing_is_a_run rules :
  (forall node w node' w',
      rewrite_then_descend rules node w node' w' ->
      from_some_fuel_on
        (fun fuel =>
           RuleApplier_visit_any fuel rules node w = Returns w' node')) /\
  (forall node w node' w',
      children_processed rules node w node' w' ->
      from_some_fuel_on
        (fun fuel =>
           generic_visit (RuleApplier_visit_any fuel rules) node w
           = Returns w' node')) /\
  (forall items w items' w',
      each_processed rules items w items' w' ->
      from_some_fuel_on
        (fun fuel =>
           visit_items (RuleApplier_visit_any fuel rules) items w
           = Returns w' items')) /\
  (forall c w c' w',
      field_processed rules c w c' w' ->
      from_some_fuel_on
        (fun fuel =>
           visit_field (RuleApplier_visit_any fuel rules) c w
           = Returns w' c')).
Proof.
  apply processing_ind; unfold from_some_fuel_on; intros;
    repeat match goal with
           | H : exists _, _ |- _ => destruct H
           end.
  - (* the rules, then the children *)
    match goal with
    | R : rules_in_order _ _ _ _ _, H : forall f, (?a <= f)%nat -> _ |- _ =>
        exists (S a); intros f' Hf; destruct f' as [|f']; [lia|];
        apply visit_with_each_rule_in_order in R; simpl;
        rewrite (bind_of_Returns _ _ _ _ _ R); apply H; lia
    end.
  - enough_fuel. intros f' Hf. simpl. unfold bind. run_with_fuel f'.
    reflexivity.
  - enough_fuel. intros f' Hf. simpl. unfold bind. run_with_fuel f'.
    reflexivity.
  - enough_fuel. intros f' Hf. simpl. unfold bind. run_with_fuel f'.
    reflexivity.
  - enough_fuel. intros f' Hf. simpl. unfold bind. run_with_fuel f'.
    reflexivity.
  - enough_fuel. intros f' Hf. simpl. unfold bind. run_with_fuel f'.
    reflexivity.
  - enough_fuel. intros f' Hf. simpl. unfold bind. run_with_fuel f'.
    reflexivity.
  - enough_fuel. intros f' Hf. simpl. unfold bind. run_with_fuel f'.
    reflexivity.
  - exists O. reflexivity.
  - exists O. reflexivity.
  - enough_fuel. intros f' Hf. simpl. unfold bind. run_with_fuel f'.
    reflexivity.
  - exists O. reflexivity.
  - enough_fuel. intros f' Hf. simpl. unfold bind. run_with_fuel f'.
    reflexivity.
  - enough_fuel. intros f' Hf. unfold visit_field.
    match goal with N : is_Node _ = true |- _ => rewrite N end.
    run_with_fuel f'. reflexivity.
  - exists O. intros f' _. unfold visit_field.
    match goal with N : is_Node _ = false |- _ => rewrite N end.
    reflexivity.
Qed.

(** The engine over the rule classes of rules.py is the engine over rule
    objects, at their [visit] methods. *)
Lemma apply_rules_as_objects rs node w :
  apply_rules rs node w = visit_with_each_rule (map Rule_visit rs) node w.
Proof.
  revert node w. induction rs as [|r rest IH]; intros node w; [reflexivity|].
  simpl. apply bind_ext; [reflexivity | exact IH].
Qed.

Lemma RuleApplier_visit_fuel_as_objects fuel rs :
  forall node w,
    RuleApplier_visit_fuel fuel rs node w
    = RuleApplier_visit_any fuel (map Rule_visit rs) node w.
Proof.
  induction fuel as [|fuel IH]; intros node w; [reflexivity|].
  simpl. apply bind_ext; [apply apply_rules_as_objects|].
  intros n1 w1. apply generic_visit_ext. exact IH.
Qed.

Lemma RuleApplier_visit_finishes rs node w :
  finishes (RuleApplier_visit rs node w) = true.
Proof.
  unfold RuleApplier_visit.
  destruct (RuleApplier_visit_fuel_stable rs (size node) node
              (S (size node)) (S (size node)) w) as [_ F]; try lia.
  destruct (RuleApplier_visit_fuel (S (size node)) rs node w);
    [reflexivity | reflexivity | congruence].
Qed.

(** C2.  The rule engine processes a tree in pre-order and rewrites before
    it descends.  For any list of rule objects, what a run of the engine
    returns is what the specification describes: at the node every rule
    has been applied in list order, each to what the rule before it
    returned, and then every child of the node that came out of the last
    rule has been processed in the same way, field by field and element by
    element; conversely every such processing is what the engine returns,
    from some amount of fuel on.  With the rules of rules.py the engine
    always comes to an end, and what it returns is exactly such a
    processing. *)
Theorem RuleApplier_visit_is_preorder_rewrite
        (rules : list rule_object) (rs : list rule) node w node' w' :
  (forall fuel,
      RuleApplier_visit_any fuel rules node w = Returns w' node' ->
      rewrite_then_descend rules node w node' w') /\
  (rewrite_then_descend rules node w node' w' ->
   from_some_fuel_on
     (fun fuel =>
        RuleApplier_visit_any fuel rules node w = Returns w' node')) /\
  finishes (RuleApplier_visit rs node w) = true /\
  (RuleApplier_visit rs node w = Returns w' node' <->
   rewrite_then_descend (map Rule_visit rs) node w node' w').
Proof.
  split; [|split; [|split; [|split]]].
  - intros fuel. apply RuleApplier_visit_any_processes.
  - apply (proj1 (processing_is_a_run rules)).
  - apply RuleApplier_visit_finishes.
  - unfold RuleApplier_visit. rewrite RuleApplier_visit_fuel_as_objects.
    apply RuleApplier_visit_any_processes.
  - intros H.
    apply (proj1 (processing_is_a_run (map Rule_visit rs))) in H
      as (fuel & H).
    specialize (H (fuel + S (size node))%nat ltac:(lia)).
    rewrite <- RuleApplier_visit_fuel_as_objects in H.
    unfold RuleApplier_visit. rewrite <- H.
    apply (RuleApplier_visit_fuel_stable rs (size node)); lia.
Qed.

Lemma RuleApplier_visit_is_preorder_rewrite_witness :
  let a_to_b := rename_rule "a" "b" in
  let b_to_c := rename_rule "b" "c" in
  let call x := TranslationUnit [CallExpr (Identifier "f") [Identifier x]] in
  let w := mkWorld false 0 in
  RuleApplier_visit_any 4 [a_to_b; b_to_c] (call "a") w
  = Returns w (call "c") /\
  RuleApplier_visit_any 4 [b_to_c; a_to_b] (call "a") w
  = Returns w (call "b") /\
  rewrite_then_descend [a_to_b; b_to_c] (call "a") w (call "c") w /\
  rewrite_then_descend [b_to_c; a_to_b] (call "a") w (call "b") w.
Proof.
  intros a_to_b b_to_c call w.
  assert (H1 : RuleApplier_visit_any 4 [a_to_b; b_to_c] (call "a") w
               = Returns w (call "c")) by reflexivity.
  assert (H2 : RuleApplier_visit_any 4 [b_to_c; a_to_b] (call "a") w
               = Returns w (call "b")) by reflexivity.
  split; [exact H1|]. split; [exact H2|]. split.
  - exact (proj1 (RuleApplier_visit_is_preorder_rewrite
                    [a_to_b; b_to_c] [] (call "a") w (call "c") w) 4%nat H1).
  - exact (proj1 (RuleApplier_visit_is_preorder_rewrite
                    [b_to_c; a_to_b] [] (call "a") w (call "b") w) 4%nat H2).
Defined.
